(** * Dispatcher: a handle-keyed event multiplexer

    A shallow embedding of [BaseDispatcher], [BaseClientDispatcher] and
    [BaseServerDispatcher], and the properties of the registry, of local
    dispatch and of the receiving side of the client/server boundary.

    Modelling conventions.
    - The source is roblox-ts: a [Map<number, V>] is a Lua table, [set] and
      [delete] assign a value and [nil] to a key, and [pairs] and
      [for ... of] walk the table with Lua's [next]. Lua does not say in
      which order a table is walked. A table is a list of slots, in the order
      of the walk; [delete] clears the value of a slot and leaves the slot
      where it is; what the order is after a key was assigned that the table
      did not hold is a parameter of the development ([Pairs]). Lua leaves a
      walk undefined when such a key is assigned during the walk: the walk
      then has no result here.
    - A [number] used as a counter is a natural number (exact as long as the
      counter stays below 2^53).
    - Each of the three handler tables of an instance is one object for the
      whole life of the instance, and the [Map] stored under a handle is
      created once and never replaced: a reference to a table is a selector
      ([TableRef]), and the [Map] is stored inline under its handle.
    - Handlers are closures of the user: a handler has a label, a body made
      of calls to the public interface of the dispatcher it closes over, and a
      result. Running a body may re-enter the dispatcher, so the interpreter
      takes fuel. [None] means that there is no result to speak of: the fuel
      ran out, or a walk became undefined.
    - The remotes are the outside: what an instance sends is output, what it
      receives is input. [invoke] on the client, which waits for the reply of
      the server, is left out; [onFunction] is what the server does with the
      request. *)

From Stdlib Require Import ZArith Lia.
From stdpp Require Import base option list sorting gmap strings pretty.

Local Open Scope string_scope.
Local Open Scope list_scope.

(** ** The order of [pairs] *)

(** What a table does with its entries when a key that it does not hold is
    assigned: [place key old new] is the list of the entries that the table
    holds afterwards, in the order in which [pairs] walks them, given the
    entries [old] that it held, in the order in which [pairs] walked them,
    and the entry [new]. The entries are seen through their keys. Nothing is
    known of the order but that no entry is lost or made up. *)
Class Pairs := {
  place : forall A : Type, (A -> nat) -> list A -> A -> list A;
  place_Permutation A (key : A -> nat) (old : list A) (new : A) :
    place A key old new ≡ₚ new :: old
}.
Arguments place {_ _} key old new.

(** One such order: the entries with a key other than 0 in the order in which
    they were assigned, then the entry with key 0. It is the order of Luau for
    a table whose keys 0, 1, ..., n were assigned in that order: the keys from
    1 on lie in the array part of the table, which [pairs] walks first, and the
    key 0 lies in the hash part. *)
Definition zeroLast (A : Type) (key : A -> nat) (old : list A) (new : A) : list A :=
  filter (fun e => key e <> 0) (old ++ [new]) ++ filter (fun e => key e = 0) (old ++ [new]).

Definition luau : Pairs.
Proof.
  refine {| place := zeroLast |}.
  intros A key old new. unfold zeroLast.
  rewrite (Permutation_app_comm (filter _ _)), filter_app_complement.
  by rewrite Permutation_app_comm.
Defined.

(** ** [Map<number, V>], a Lua table *)

Module Map.
Section WithValue.
Context {order : Pairs} {V : Type}.

(** The slots in the order of the walk: a key with its value, or a key whose
    value [delete] cleared. *)
Definition t := list (nat * option V).

Definition empty : t := [].

Fixpoint has (k : nat) (m : t) : bool :=
match m with
| [] => false
| (k', Some _) :: m' => if decide (k' = k) then true else has k m'
| (_, None) :: m' => has k m'
end.

Fixpoint get (k : nat) (m : t) : option V :=
match m with
| [] => None
| (k', Some v) :: m' => if decide (k' = k) then Some v else get k m'
| (_, None) :: m' => get k m'
end.

(** The entries that are there, in the order of the walk. *)
Definition entries (m : t) : list (nat * V) :=
omap (fun s => (fun v => (s.1, v)) <$> s.2) m.

Definition keys (m : t) : list nat := (entries m).*1.

Definition values (m : t) : list V := (entries m).*2.

Definition size (m : t) : nat := length (entries m).

(** The keys of the slots, cleared ones included. *)
Definition slots (m : t) : list nat := m.*1.

(** [m[k] = v] for a key that is there: its value is replaced where it
  stands. *)
Fixpoint assign (k : nat) (v : V) (m : t) : t :=
match m with
| [] => []
| (k', Some v') :: m' =>
    if decide (k' = k) then (k, Some v) :: m' else (k', Some v') :: assign k v m'
| (k', None) :: m' => (k', None) :: assign k v m'
end.

(** [set]: for a key that is not there the table makes room, and the order
  of the walk afterwards is the one [place] gives. *)
Definition set (k : nat) (v : V) (m : t) : t :=
if has k m then assign k v m
else (fun e => (e.1, Some e.2)) <$> place fst (entries m) (k, v).

(** [delete]: the value of the key is cleared, the slot stays where it is,
  and the result tells whether the key was there. *)
Fixpoint delete (k : nat) (m : t) : bool * t :=
match m with
| [] => (false, [])
| (k', Some v') :: m' =>
    if decide (k' = k) then (true, (k', None) :: m')
    else let '(b, m'') := delete k m' in (b, (k', Some v') :: m'')
| (k', None) :: m' => let '(b, m'') := delete k m' in (b, (k', None) :: m'')
end.
End WithValue.
Arguments t : clear implicits.
End Map.
(** ** Values, identifiers, handlers *)

Record Player := mkPlayer { Name : string }.

(** The table an identifier's [group] field points to. *)
Inductive TableRef := boundOperationsRef | boundPostOperationsRef | incomingEventsRef.

Record OperationExternalIdentifier := mkIdentifier {
  group : TableRef;
  handle : string;
  id : nat
}.

(** Values of type [unknown] that cross the interface. *)
Inductive value :=
| VUndefined
| VBoolean (b : bool)
| VNumber (n : Z)
| VString (s : string)
| VPlayer (p : Player)
| VIdentifier (i : OperationExternalIdentifier).

(** A handler and the calls its body may make on the dispatcher. *)
Inductive Handler :=
| mkHandler (label : nat) (body : list value -> list Call) (result : list value -> value)
with Call :=
| Dispatch (handle : string) (args : list value)
| Listen (handle : string) (handler : Handler)
| ListenPost (handle : string) (handler : Handler)
| Unbind (operationIdentifier : OperationExternalIdentifier)
| On (handle : string) (handler : Handler)
| Handle (handle : string) (handler : Handler)
| Emit (player : Player) (handle : string) (args : list value)
| Broadcast (handle : string) (args : list value)
| ClientEmit (handle : string) (args : list value)
| Raise (message : string).

Definition label (f : Handler) : nat := let '(mkHandler l _ _) := f in l.
Definition body (f : Handler) : list value -> list Call := let '(mkHandler _ b _) := f in b.
Definition result (f : Handler) : list value -> value := let '(mkHandler _ _ r) := f in r.

(** ** The dispatcher instance and what it does to the outside *)

Abbreviation OperationIdArray := (Map.t Handler).
Abbreviation ClassOperationMap := (gmap string (Map.t Handler)).

Record Dispatcher := mkDispatcher {
  caseNumber : nat;
  boundOperations : ClassOperationMap;
  boundPostOperations : ClassOperationMap;
  incomingEvents : ClassOperationMap;
  incomingFunctions : gmap string Handler;
  verbose : bool
}.

(** What an execution does that can be seen from outside: lines printed,
    warnings, handler invocations, and messages put on the remote event. *)
Inductive Output :=
| Printed (message : list string)
| Warned (message : string)
| Invoked (handler : Handler) (args : list value)
| FireClient (player : Player) (handle : string) (args : list value)
| FireAllClients (handle : string) (args : list value)
| FireServer (handle : string) (args : list value).

Record World := mkWorld {
  this : Dispatcher;
  output : list Output
}.

Definition emitOutput (o : Output) (w : World) : World :=
  mkWorld (this w) (output w ++ [o]).

Definition table (g : TableRef) (d : Dispatcher) : ClassOperationMap :=
  match g with
  | boundOperationsRef => boundOperations d
  | boundPostOperationsRef => boundPostOperations d
  | incomingEventsRef => incomingEvents d
  end.

Definition setTable (g : TableRef) (m : ClassOperationMap) (d : Dispatcher) : Dispatcher :=
  match g with
  | boundOperationsRef =>
      mkDispatcher (caseNumber d) m (boundPostOperations d) (incomingEvents d)
        (incomingFunctions d) (verbose d)
  | boundPostOperationsRef =>
      mkDispatcher (caseNumber d) (boundOperations d) m (incomingEvents d)
        (incomingFunctions d) (verbose d)
  | incomingEventsRef =>
      mkDispatcher (caseNumber d) (boundOperations d) (boundPostOperations d) m
        (incomingFunctions d) (verbose d)
  end.

Definition setCaseNumber (n : nat) (d : Dispatcher) : Dispatcher :=
  mkDispatcher n (boundOperations d) (boundPostOperations d) (incomingEvents d)
    (incomingFunctions d) (verbose d).

Definition setIncomingFunctions (m : gmap string Handler) (d : Dispatcher) : Dispatcher :=
  mkDispatcher (caseNumber d) (boundOperations d) (boundPostOperations d)
    (incomingEvents d) m (verbose d).

(** ** Results: a call returns or throws, in a new world *)

Inductive Result (A : Type) :=
| Returned (a : A) (w : World)
| Threw (message : string) (w : World).
Arguments Returned {A} a w.
Arguments Threw {A} message w.

Definition worldOf {A} (r : Result A) : World :=
  match r with Returned _ w => w | Threw _ w => w end.

(** Computations that may have no result: the fuel ran out, or a walk became
    undefined. *)
Definition M (A : Type) : Type := World -> option (Result A).

Definition ret {A} (a : A) : M A := fun w => Some (Returned a w).

Definition bind {A B} (m : M A) (k : A -> M B) : M B :=
  fun w =>
    match m w with
    | None => None
    | Some (Threw msg w') => Some (Threw msg w')
    | Some (Returned a w') => k a w'
    end.

Notation "'let!' x ':=' m 'in' k" := (bind m (fun x => k))
  (at level 10, x name, m at level 100, k at level 200, only parsing).
Notation "'do!' m 'in' k" := (bind m (fun _ => k))
  (at level 10, m at level 100, k at level 200, only parsing).

Definition lift {A} (f : World -> Result A) : M A := fun w => Some (f w).

(** ** BaseDispatcher *)

Definition dquote : string := String (Ascii.ascii_of_nat 34) EmptyString.

Definition quoted (handle : string) : string := dquote +:+ handle +:+ dquote.

Definition verbosePrint (message : list string) (w : World) : World :=
  if verbose (this w) then emitOutput (Printed ("DISPATCHER:" :: message)) w else w.

(** [new BaseDispatcher()]; [studio] is what [RunService.IsStudio()] answers. *)
Definition construct (studio : bool) : World :=
  verbosePrint ["Finished initialization"]
    (mkWorld (mkDispatcher 0 ∅ ∅ ∅ ∅ studio) []).

Section WithPairs.
Context {order : Pairs}.

Definition bindListen (handle : string) (operations : TableRef) (handler : Handler)
    (d : Dispatcher) : OperationExternalIdentifier * Dispatcher :=
  let caseNumber' := caseNumber d in
  let d := setCaseNumber (S caseNumber') d in
  let boundOperations :=
    match table operations d !! handle with
    | Some boundOperations => boundOperations
    | None => Map.empty
    end in
  (mkIdentifier operations handle caseNumber',
   setTable operations
     (<[handle := Map.set caseNumber' handler boundOperations]> (table operations d)) d).

Definition bindIn (handle : string) (operations : TableRef) (handler : Handler)
    (w : World) : Result value :=
  let '(i, d) := bindListen handle operations handler (this w) in
  Returned (VIdentifier i) (mkWorld d (output w)).

Definition listen (handle : string) (handler : Handler) (w : World) : Result value :=
  bindIn handle boundOperationsRef handler
    (verbosePrint ["Bound " +:+ quoted handle] w).

Definition listenPost (handle : string) (handler : Handler) (w : World) : Result value :=
  bindIn handle boundPostOperationsRef handler
    (verbosePrint ["Bound " +:+ quoted handle +:+ " to post"] w).

(** [unbind]: indexing the [undefined] that a missing handle gives throws. *)
Definition unbind (operationIdentifier : OperationExternalIdentifier) (w : World)
    : Result value :=
  let operations := group operationIdentifier in
  match table operations (this w) !! handle operationIdentifier with
  | None => Threw "attempt to index nil" w
  | Some searchingMap =>
      let '(existed, searchingMap') := Map.delete (id operationIdentifier) searchingMap in
      Returned (VBoolean existed)
        (mkWorld
           (setTable operations
              (<[handle operationIdentifier := searchingMap']> (table operations (this w)))
              (this w))
           (output w))
  end.

(** The queue that [operations] holds under [handle], empty when there is none. *)
Definition queueOf (operations : TableRef) (handle : string) (d : Dispatcher)
    : OperationIdArray :=
  default Map.empty (table operations d !! handle).

Section Running.
(** How a call made by a handler body is run. *)
Variable run : Call -> M value.

Fixpoint runBody (calls : list Call) : M unit :=
  match calls with
  | [] => ret tt
  | c :: calls' => do! run c in runBody calls'
  end.

(** [handler(...args)] *)
Definition callHandler (args : list value) (handler : Handler) : M value :=
  fun w =>
    (do! runBody (body handler args) in ret (result handler args))
      (emitOutput (Invoked handler args) w).

(** [for (const [, handler] of pairs(queue)) handler(...args)] from slot [i]
    on, where [queue] is the [Map] that [operations] holds under [handle].
    The walk reads the table itself: a slot whose value was cleared is
    passed over. The walk goes on after a call when the slots of the table
    are the slots it had before the call, so that no key was assigned that
    was not there; otherwise Lua does not define it, and there is no
    result. *)
Fixpoint forOf (n : nat) (operations : TableRef) (handle : string)
    (args : list value) (i : nat) : M unit :=
  match n with
  | 0 => fun _ => None
  | S n' => fun w =>
      match table operations (this w) !! handle with
      | None => Some (Returned tt w)
      | Some queue =>
          match queue !! i with
          | None => Some (Returned tt w)
          | Some (_, None) => forOf n' operations handle args (S i) w
          | Some (_, Some handler) =>
              (do! callHandler args handler in
               fun w' =>
                 if decide (Map.slots (queueOf operations handle (this w')) = Map.slots queue)
                 then forOf n' operations handle args (S i) w'
                 else None) w
          end
      end
  end.

(** [if (queue) { for (...) ... }] *)
Definition forQueue (n : nat) (queue : option OperationIdArray) (operations : TableRef)
    (handle : string) (args : list value) : M unit :=
  match queue with
  | Some _ => forOf n operations handle args 0
  | None => ret tt
  end.

Definition queuedMessage (handle : string)
    (dispatchQueue postDispatchQueue : option OperationIdArray) : string :=
  "Queued " +:+ quoted handle +:+ " with "
    +:+ pretty (match dispatchQueue with Some q => Map.size q | None => 0 end)
    +:+ match postDispatchQueue with
        | Some q => " (+" +:+ pretty (Map.size q) +:+ ")"
        | None => ""
        end
    +:+ " bound.".

Definition dispatch (n : nat) (handle : string) (args : list value) : M value :=
  fun w =>
    let dispatchQueue := boundOperations (this w) !! handle in
    let postDispatchQueue := boundPostOperations (this w) !! handle in
    (do! forQueue n dispatchQueue boundOperationsRef handle args in
     do! forQueue n postDispatchQueue boundPostOperationsRef handle args in
     ret VUndefined)
      (verbosePrint [queuedMessage handle dispatchQueue postDispatchQueue] w).
End Running.

(** ** BaseServerDispatcher and BaseClientDispatcher: the public interface *)

Definition on (handle : string) (handler : Handler) (w : World) : Result value :=
  bindIn handle incomingEventsRef handler
    (verbosePrint ["Bound EVNT: " +:+ quoted handle] w).

Definition handle_ (handle : string) (handler : Handler) (w : World) : Result value :=
  let w := verbosePrint ["Bound FUNC: " +:+ quoted handle] w in
  Returned VUndefined
    (mkWorld (setIncomingFunctions (<[handle := handler]> (incomingFunctions (this w))) (this w))
       (output w)).

Definition emit (player : Player) (handle : string) (args : list value) (w : World)
    : Result value :=
  Returned VUndefined (emitOutput (FireClient player handle args) w).

Definition broadcast (handle : string) (args : list value) (w : World) : Result value :=
  Returned VUndefined (emitOutput (FireAllClients handle args) w).

Definition clientEmit (handle : string) (args : list value) (w : World) : Result value :=
  Returned VUndefined (emitOutput (FireServer handle args) w).

(** The interpreter of calls. *)
Fixpoint exec (fuel : nat) (c : Call) : M value :=
  match fuel with
  | 0 => fun _ => None
  | S n =>
      match c with
      | Dispatch handle args => dispatch (exec n) n handle args
      | Listen handle handler => lift (listen handle handler)
      | ListenPost handle handler => lift (listenPost handle handler)
      | Unbind operationIdentifier => lift (unbind operationIdentifier)
      | On handle handler => lift (on handle handler)
      | Handle handle handler => lift (handle_ handle handler)
      | Emit player handle args => lift (emit player handle args)
      | Broadcast handle args => lift (broadcast handle args)
      | ClientEmit handle args => lift (clientEmit handle args)
      | Raise message => fun w => Some (Threw message w)
      end
  end.

(** ** The receiving side of the boundary *)

(** The type guard [key is keyof T]: the key as a handle when it passes. *)
Definition verifyRemoteExistance {T} (key : value) (table : gmap string T) : option string :=
  match key with
  | VString s => match table !! s with Some _ => Some s | None => None end
  | _ => None
  end.

Definition handleEvent (fuel : nat) (player : Player) (handle : string) (args : list value)
    : M value :=
  fun w =>
    let incomingEvents := incomingEvents (this w) !! handle in
    (do! forQueue (exec fuel) fuel incomingEvents incomingEventsRef handle
           (VPlayer player :: args) in
     ret VUndefined) w.

Definition onEvent (fuel : nat) (player : Player) (boundHandle : value) (args : list value)
    : M value :=
  fun w =>
    match verifyRemoteExistance boundHandle (incomingEvents (this w)) with
    | None =>
        Some (Returned VUndefined
                (emitOutput (Warned (Name player +:+ " tried to fire a non-existant event!")) w))
    | Some handle => handleEvent fuel player handle args w
    end.

Definition handleFunction (fuel : nat) (player : Player) (handle : string) (args : list value)
    : M value :=
  fun w =>
    match incomingFunctions (this w) !! handle with
    | Some handler => callHandler (exec fuel) (VPlayer player :: args) handler w
    | None => Some (Threw "attempt to call a nil value" w)
    end.

Definition onFunction (fuel : nat) (player : Player) (boundHandle : value) (args : list value)
    : M value :=
  fun w =>
    match verifyRemoteExistance boundHandle (incomingFunctions (this w)) with
    | None =>
        Some (Returned VUndefined
                (emitOutput (Warned (Name player +:+ " tried to fire a non-existant function!")) w))
    | Some handle => handleFunction fuel player handle args w
    end.

(** [BaseClientDispatcher.handleEvent] *)
Definition clientHandleEvent (fuel : nat) (handle : string) (args : list value) : M value :=
  dispatch (exec fuel) fuel handle args.

(** What reaches an instance: a call of a script, or a message on one of the
    two remotes. *)
Inductive Input :=
| Script (c : Call)
| OnServerEvent (player : Player) (boundEvent : value) (args : list value)
| OnServerInvoke (player : Player) (boundEvent : value) (args : list value)
| OnClientEvent (boundEvent : string) (args : list value).

Definition step (fuel : nat) (i : Input) : M value :=
  match i with
  | Script c => exec fuel c
  | OnServerEvent player boundEvent args => onEvent fuel player boundEvent args
  | OnServerInvoke player boundEvent args => onFunction fuel player boundEvent args
  | OnClientEvent boundEvent args => clientHandleEvent fuel boundEvent args
  end.

(** Histories: what an instance can go through, by inputs that are [allowed]. *)
Inductive stepsOf (allowed : Input -> Prop) : World -> World -> Prop :=
| steps_refl w : stepsOf allowed w w
| steps_step w fuel i r w' :
    allowed i -> step fuel i w = Some r -> stepsOf allowed (worldOf r) w' ->
    stepsOf allowed w w'.

Definition steps : World -> World -> Prop := stepsOf (fun _ => True).

Definition reachable (w : World) : Prop := exists studio, steps (construct studio) w.

(** The calls that subscribe a handler and return an identifier. *)
Definition subscribes (c : Call) : bool :=
  match c with
  | Listen _ _ | ListenPost _ _ | On _ _ => true
  | _ => false
  end.

(** The handler that a call puts into the dispatcher. *)
Definition stored (c : Call) : option Handler :=
  match c with
  | Listen _ f | ListenPost _ f | On _ f | Handle _ f => Some f
  | _ => None
  end.

(** ** Definitions used to state the properties *)

(** [run'] returns what [run] returns, wherever [run] returns. *)
Definition extends {A} (m m' : M A) : Prop :=
  forall w r, m w = Some r -> m' w = Some r.

Global Instance TableRef_eq_dec : EqDecision TableRef.
Proof. solve_decision. Defined.

Section Guarded.
(** The calls that handlers and scripts are taken to make. *)
Variable ok : Call -> Prop.

Definition okHandler (f : Handler) : Prop := forall args, Forall ok (body f args).

Definition okWorld (w : World) : Prop :=
  (forall g h q, table g (this w) !! h = Some q -> Forall okHandler (Map.values q)) /\
  (forall h f, incomingFunctions (this w) !! h = Some f -> okHandler f).

Definition okInput (i : Input) : Prop :=
  match i with Script c => ok c | _ => True end.
End Guarded.

(** A relation between the world before and the world after is stable, for
    the calls in [ok], when it is a preorder that each elementary change of
    the world respects; it then holds along every execution that makes calls
    in [ok] only. *)
Class Stable (ok : Call -> Prop) (R : relation World) : Prop := {
  stable_preorder :: PreOrder R;
  stable_stored c f : ok c -> stored c = Some f -> okHandler ok f;
  stable_output o w : R w (emitOutput o w);
  stable_bind handle operations handler w :
    R w (mkWorld (bindListen handle operations handler (this w)).2 (output w));
  stable_unbind i w : R w (worldOf (unbind i w));
  stable_handle handle handler w :
    ok (Handle handle handler) ->
    R w (mkWorld
           (setIncomingFunctions (<[handle := handler]> (incomingFunctions (this w))) (this w))
           (output w))
}.

(** [R], for worlds whose handlers make calls in [ok] only. *)
Definition guarded (ok : Call -> Prop) (R : relation World) (w w' : World) : Prop :=
  okWorld ok w -> okWorld ok w' /\ R w w'.

Definition StableM (ok : Call -> Prop) (R : relation World) {A} (m : M A) : Prop :=
  forall w r, m w = Some r -> guarded ok R w (worldOf r).

(** With no restriction on the calls. *)
Definition anyCall (c : Call) : Prop := True.


(** The counter never goes down. *)
Definition counterGrows (w w' : World) : Prop :=
  caseNumber (this w) <= caseNumber (this w').


(** A handle of a table stays in the table. *)
Definition handlesKept (w w' : World) : Prop :=
  forall g h, is_Some (table g (this w) !! h) -> is_Some (table g (this w') !! h).


(** Handlers and worlds for examples. *)
Definition quiet (n : nat) : Handler := mkHandler n (fun _ => []) (fun _ => VUndefined).

(** The world after the given inputs, each with the given fuel. *)
Fixpoint after (fuel : nat) (inputs : list Input) (w : World) : option World :=
  match inputs with
  | [] => Some w
  | i :: inputs' =>
      match step fuel i w with
      | Some r => after fuel inputs' (worldOf r)
      | None => None
      end
  end.

(** Execution only adds to the output. *)
Definition outputGrows (w w' : World) : Prop :=
  exists rest, output w' = output w ++ rest.

(** The responder of [handle] stays the same. *)
Definition responderKept (handle : string) (w w' : World) : Prop :=
  incomingFunctions (this w') !! handle = incomingFunctions (this w) !! handle.

(** The call is not [handle(handle, ...)], and no handler it passes to the
    dispatcher makes such a call, or passes on one that does. *)
Fixpoint neverHandles (handle : string) (c : Call) : Prop :=
  match c with
  | Handle handle' f => handle' <> handle /\ handlerNeverHandles handle f
  | Listen _ f | ListenPost _ f | On _ f => handlerNeverHandles handle f
  | _ => True
  end
with handlerNeverHandles (handle : string) (f : Handler) : Prop :=
  match f with
  | mkHandler _ body _ =>
      forall args,
        (fix all (calls : list Call) : Prop :=
           match calls with
           | [] => True
           | c :: calls' => neverHandles handle c /\ all calls'
           end) (body args)
  end.

(** The warnings and the invocations of an output. *)
Definition warnings (out : list Output) : list string :=
  omap (fun o => match o with Warned message => Some message | _ => None end) out.

Definition invocations (out : list Output) : list (Handler * list value) :=
  omap (fun o => match o with Invoked f args => Some (f, args) | _ => None end) out.

(** A responder that answers with a number. *)
Definition answer (label : nat) (n : Z) : Handler :=
  mkHandler label (fun _ => []) (fun _ => VNumber n).

(** ** Well-formed queues and how they change *)

(** The keys of the slots of a queue differ from each other and are below the
    counter. *)
Definition keysBelow {V} (bound : nat) (m : Map.t V) : Prop :=
  NoDup (Map.slots m) /\ Forall (fun k => k < bound) (Map.slots m).

(** A slot stays as it is or has its value cleared. *)
Definition staysOrCleared {V} (s s' : nat * option V) : Prop :=
  s'.1 = s.1 /\ (s'.2 = s.2 \/ s'.2 = None).

(** From [m] to [m']: the slots of [m] stay where they are, with their value
    or cleared, unless a key from [bound] on was assigned. *)
Definition grownFrom {V} (bound : nat) (m m' : Map.t V) : Prop :=
  Forall2 staysOrCleared m m' \/ exists k, k ∈ Map.slots m' /\ bound <= k.

Definition wf (w : World) : Prop :=
  forall g h q, table g (this w) !! h = Some q -> keysBelow (caseNumber (this w)) q.

Definition evolves (w w' : World) : Prop :=
  caseNumber (this w) <= caseNumber (this w') /\
  forall g h q,
    table g (this w) !! h = Some q ->
    exists q', table g (this w') !! h = Some q' /\ grownFrom (caseNumber (this w)) q q'.

(** From a well-formed world, execution leads to a well-formed world whose
    queues have grown from those of the first. *)
Definition orderly (w w' : World) : Prop := wf w -> wf w' /\ evolves w w'.

(** ** Sequences of registrations *)

Record Registration := mkRegistration {
  regTable : TableRef;
  regHandle : string;
  regHandler : Handler
}.

(** [listen], [listenPost] or [on], by the table of the registration. *)
Definition subscribe (r : Registration) (w : World) : Result value :=
  match regTable r with
  | boundOperationsRef => listen (regHandle r) (regHandler r) w
  | boundPostOperationsRef => listenPost (regHandle r) (regHandler r) w
  | incomingEventsRef => on (regHandle r) (regHandler r) w
  end.

Definition subscribeAll (regs : list Registration) (w : World) : World :=
  foldl (fun w r => worldOf (subscribe r w)) w regs.

(** The handlers registered in a table under a handle, in the order of the
    registrations. *)
Definition handlersOf (g : TableRef) (h : string) (regs : list Registration)
    : list Handler :=
  regHandler <$> filter (fun r => regTable r = g /\ regHandle r = h) regs.

(** The handler does not call the dispatcher when it is given [args]. *)
Definition quietOn (args : list value) (f : Handler) : Prop := body f args = [].

(** The world after the handlers were called in turn, each of them quiet. *)
Definition invokeAll (args : list value) (fs : list Handler) (w : World) : World :=
  mkWorld (this w) (output w ++ ((fun f => Invoked f args) <$> fs)).

(** The call sends a message, sets a responder, or subscribes under a handle
    other than [handle]: it returns, and it leaves the queues of [handle]
    alone. *)
Definition plain (handle : string) (c : Call) : bool :=
  match c with
  | Emit _ _ _ | Broadcast _ _ | ClientEmit _ _ | Handle _ _ => true
  | Listen h _ | ListenPost h _ | On h _ => bool_decide (h <> handle)
  | Unbind _ | Dispatch _ _ | Raise _ => false
  end.

(** The calls that the handler makes when it is given [args] are plain. *)
Definition plainOn (handle : string) (args : list value) (f : Handler) : Prop :=
  Forall (fun c => plain handle c = true) (body f args).

(** What a call other than [dispatch] does to the world. *)
Definition perform (c : Call) (w : World) : World :=
  match c with
  | Listen h f => worldOf (listen h f w)
  | ListenPost h f => worldOf (listenPost h f w)
  | Unbind i => worldOf (unbind i w)
  | On h f => worldOf (on h f w)
  | Handle h f => worldOf (handle_ h f w)
  | Emit player h args => worldOf (emit player h args w)
  | Broadcast h args => worldOf (broadcast h args w)
  | ClientEmit h args => worldOf (clientEmit h args w)
  | Dispatch _ _ | Raise _ => w
  end.

(** The world after the handler was called with [args], and after the
    handlers were called in turn, when their calls are plain. *)
Definition called (args : list value) (f : Handler) (w : World) : World :=
  foldl (fun w c => perform c w) (emitOutput (Invoked f args) w) (body f args).

Definition calledAll (args : list value) (fs : list Handler) (w : World) : World :=
  foldl (fun w f => called args f w) w fs.

(** A handler that sends its arguments back to the player who sent them, and
    one that sends them to all clients. *)
Definition replier (label : nat) (handle : string) : Handler :=
  mkHandler label
    (fun args => match args with
                 | VPlayer player :: args' => [Emit player handle args']
                 | _ => []
                 end)
    (fun _ => VUndefined).


(** ** One pass, with the entries it visits *)


(** A handler that unbinds an identifier, and one that subscribes a handler. *)
Definition unbinder (label : nat) (i : OperationExternalIdentifier) : Handler :=
  mkHandler label (fun _ => [Unbind i]) (fun _ => VUndefined).

Definition listener (label : nat) (handle : string) (f : Handler) : Handler :=
  mkHandler label (fun _ => [Listen handle f]) (fun _ => VUndefined).


(** ** Definitions for further properties *)

(** [m] leads from a world to a world related to it by [R]. *)
Definition Keeps (R : relation World) {A} (m : M A) : Prop :=
  forall w r, m w = Some r -> R w (worldOf r).

Definition isDispatch (c : Call) : bool :=
  match c with Dispatch _ _ => true | _ => false end.

(** The lines printed. *)
Definition printed (out : list Output) : list (list string) :=
  omap (fun o => match o with Printed message => Some message | _ => None end) out.

(** A non-verbose instance stays so and prints nothing. *)
Definition staysSilent (w w' : World) : Prop :=
  verbose (this w') = verbose (this w) /\
  (verbose (this w) = false -> printed (output w') = printed (output w)).

(** No warning is added. *)
Definition warnsNothing (w w' : World) : Prop :=
  warnings (output w') = warnings (output w).

(** The handle of a received message is one the server knows. *)
Definition knownHandle (i : Input) (w : World) : Prop :=
  match i with
  | OnServerEvent _ boundEvent _ =>
      is_Some (verifyRemoteExistance boundEvent (incomingEvents (this w)))
  | OnServerInvoke _ boundEvent _ =>
      is_Some (verifyRemoteExistance boundEvent (incomingFunctions (this w)))
  | _ => True
  end.


(** The entries that the registrations put in the queue of [h] in table [g],
    when the first of them gets id [n] and each next one the next id. *)
Fixpoint entriesOf (g : TableRef) (h : string) (n : nat) (regs : list Registration)
    : list (nat * Handler) :=
  match regs with
  | [] => []
  | r :: regs' =>
      (if decide (g = regTable r /\ h = regHandle r) then [(n, regHandler r)] else [])
        ++ entriesOf g h (S n) regs'
  end.


(** The handlers of the queue of [handle i] in table [g], without the one
    that identifier [i] names. *)
Definition handlersWithout (i : OperationExternalIdentifier) (g : TableRef) (w : World)
    : list Handler :=
  (filter (fun e => ~ (g = group i /\ e.1 = id i))
     (Map.entries (queueOf g (handle i) (this w)))).*2.


(** A handler that dispatches, with the arguments it is given, the handle it
    is told. *)
Definition redispatcher (label : nat) (handle : string) : Handler :=
  mkHandler label (fun args => [Dispatch handle args]) (fun _ => VUndefined).


(** An id is a key of one queue at most. *)
Definition idsApart (w : World) : Prop :=
  forall g h g' h' (q q' : OperationIdArray) k,
    table g (this w) !! h = Some q -> table g' (this w) !! h' = Some q' ->
    k ∈ Map.keys q -> k ∈ Map.keys q' -> g = g' /\ h = h'.

Definition tidy (w w' : World) : Prop :=
  wf w /\ idsApart w -> wf w' /\ idsApart w'.


(** All that the handler does with [args] is to subscribe post handlers. *)
Definition onlyListensPost (args : list value) (f : Handler) : Prop :=
  Forall (fun c => exists handle handler, c = ListenPost handle handler) (body f args).

(** A handler that subscribes a post handler. *)
Definition postListener (label : nat) (handle : string) (f : Handler) : Handler :=
  mkHandler label (fun _ => [ListenPost handle f]) (fun _ => VUndefined).


(** The line that a verbose instance prints for a registration. *)
Definition boundLine (r : Registration) : list string :=
  ["DISPATCHER:";
   match regTable r with
   | boundOperationsRef => "Bound " +:+ quoted (regHandle r)
   | boundPostOperationsRef => "Bound " +:+ quoted (regHandle r) +:+ " to post"
   | incomingEventsRef => "Bound EVNT: " +:+ quoted (regHandle r)
   end].


(** * Properties *)

(** ** Facts on [Map] *)

Section MapFacts.
Context {V : Type}.
Implicit Types (m : Map.t V) (k : nat) (v : V).

Lemma entries_cons_Some k v m : Map.entries ((k, Some v) :: m) = (k, v) :: Map.entries m.
Proof. reflexivity. Qed.

Lemma entries_cons_None k m : Map.entries ((k, None) :: m) = Map.entries m.
Proof. reflexivity. Qed.

Lemma entries_app m1 m2 : Map.entries (m1 ++ m2) = Map.entries m1 ++ Map.entries m2.
Proof. apply omap_app. Qed.

Lemma keys_cons_Some k v m : Map.keys ((k, Some v) :: m) = k :: Map.keys m.
Proof. reflexivity. Qed.

Lemma keys_cons_None k m : Map.keys ((k, None) :: m) = Map.keys m.
Proof. reflexivity. Qed.


Lemma values_cons_Some k v m : Map.values ((k, Some v) :: m) = v :: Map.values m.
Proof. reflexivity. Qed.

Lemma values_cons_None k m : Map.values ((k, None) :: m) = Map.values m.
Proof. reflexivity. Qed.

Lemma values_app m1 m2 : Map.values (m1 ++ m2) = Map.values m1 ++ Map.values m2.
Proof. unfold Map.values. by rewrite entries_app, fmap_app. Qed.

Lemma lookup_values m i k v : m !! i = Some (k, Some v) -> v ∈ Map.values m.
Proof.
  revert i. induction m as [|[k' [v'|]] m IH]; intros [|i] H; simpl in H; try done.
  - inversion H; subst. left.
  - rewrite values_cons_Some. right. eauto.
  - rewrite values_cons_None. eauto.
Qed.

Lemma lookup_keys m i k v : m !! i = Some (k, Some v) -> k ∈ Map.keys m.
Proof.
  revert i. induction m as [|[k' [v'|]] m IH]; intros [|i] H; simpl in H; try done.
  - inversion H; subst. left.
  - rewrite keys_cons_Some. right. eauto.
  - rewrite keys_cons_None. eauto.
Qed.

(** The keys that are there are keys of slots. *)
Lemma keys_sublist m : sublist (Map.keys m) (Map.slots m).
Proof.
  induction m as [|[k [v|]] m IH]; [constructor|..].
  - rewrite keys_cons_Some. by apply sublist_skip.
  - rewrite keys_cons_None. by apply sublist_cons.
Qed.

Lemma keys_slots m k : k ∈ Map.keys m -> k ∈ Map.slots m.
Proof. intros Hk. eapply elem_of_sublist; [exact Hk | apply keys_sublist]. Qed.

Lemma has_keys k m : Map.has k m = bool_decide (k ∈ Map.keys m).
Proof.
  induction m as [|[k' [v'|]] m IH]; cbn [Map.has].
  - symmetry. apply bool_decide_eq_false_2, not_elem_of_nil.
  - rewrite keys_cons_Some. destruct (decide (k' = k)) as [->|Hk].
    + symmetry. apply bool_decide_eq_true_2. left.
    + rewrite IH. apply bool_decide_ext. rewrite elem_of_cons. intuition congruence.
  - by rewrite keys_cons_None.
Qed.

Lemma has_absent k m : k ∉ Map.keys m -> Map.has k m = false.
Proof. intros H. rewrite has_keys. by apply bool_decide_eq_false_2. Qed.

(** The table built from a list of entries holds these entries, in their
    order, and has no cleared slot. *)
Lemma entries_built (es : list (nat * V)) :
  Map.entries ((fun e => (e.1, Some e.2)) <$> es) = es.
Proof. induction es as [|[k v] es IH]; [done|]. rewrite fmap_cons. simpl. by f_equal. Qed.

Lemma slots_built (es : list (nat * V)) :
  Map.slots ((fun e => (e.1, Some e.2)) <$> es) = es.*1.
Proof. unfold Map.slots. rewrite <- list_fmap_compose. done. Qed.

(** [set] with a key that is not there adds the entry, somewhere. *)
Lemma entries_set_fresh k v m :
  k ∉ Map.keys m -> Map.entries (Map.set k v m) ≡ₚ (k, v) :: Map.entries m.
Proof.
  intros Hk. unfold Map.set. rewrite has_absent by done.
  rewrite entries_built. apply place_Permutation.
Qed.

(** The slots afterwards are those of the entries: cleared slots are gone. *)
Lemma slots_set_fresh k v m :
  k ∉ Map.keys m -> Map.slots (Map.set k v m) ≡ₚ k :: Map.keys m.
Proof.
  intros Hk. unfold Map.set. rewrite has_absent by done.
  rewrite slots_built, place_Permutation. done.
Qed.

Lemma slots_set_keys k v m :
  k ∉ Map.keys m -> Map.slots (Map.set k v m) = Map.keys (Map.set k v m).
Proof.
  intros Hk. unfold Map.set. rewrite has_absent by done.
  unfold Map.keys. by rewrite slots_built, entries_built.
Qed.

Lemma values_assign (P : V -> Prop) k v m :
  Forall P (Map.values m) -> P v -> Forall P (Map.values (Map.assign k v m)).
Proof.
  intros Hm Hv. induction m as [|[k' [v'|]] m IH]; simpl.
  - constructor.
  - rewrite values_cons_Some in Hm. inversion Hm; subst.
    case_decide; rewrite values_cons_Some; constructor; auto.
  - rewrite values_cons_None in *. auto.
Qed.

Lemma values_set (P : V -> Prop) k v m :
  Forall P (Map.values m) -> P v -> Forall P (Map.values (Map.set k v m)).
Proof.
  intros Hm Hv. destruct (Map.has k m) eqn:Hhas.
  - unfold Map.set. rewrite Hhas. by apply values_assign.
  - assert (k ∉ Map.keys m) as Hk.
    { rewrite has_keys in Hhas. by apply bool_decide_eq_false_1 in Hhas. }
    unfold Map.values. rewrite (entries_set_fresh k v m Hk). by constructor.
Qed.

Lemma slots_delete k m : Map.slots (Map.delete k m).2 = Map.slots m.
Proof.
  induction m as [|[k' [v'|]] m IH]; simpl; [done|..].
  - case_decide; [done|]. destruct (Map.delete k m) as [b m'']. simpl in *. by f_equal.
  - destruct (Map.delete k m) as [b m'']. simpl in *. by f_equal.
Qed.

Lemma values_delete (P : V -> Prop) k m :
  Forall P (Map.values m) -> Forall P (Map.values (Map.delete k m).2).
Proof.
  induction m as [|[k' [v'|]] m IH]; simpl; intros Hm.
  - constructor.
  - rewrite values_cons_Some in Hm. inversion Hm; subst. case_decide; [done|].
    destruct (Map.delete k m) as [b m'']. cbn [snd] in *.
    rewrite values_cons_Some. constructor; auto.
  - destruct (Map.delete k m) as [b m'']. cbn [snd] in *.
    rewrite values_cons_None in *. auto.
Qed.
End MapFacts.

(** ** The tables under the elementary changes *)

Lemma table_setTable g g' m d :
  table g' (setTable g m d) = if decide (g' = g) then m else table g' d.
Proof. destruct g, g'; reflexivity. Qed.

Lemma table_setTable_eq g m d : table g (setTable g m d) = m.
Proof. destruct g; reflexivity. Qed.

Lemma table_setTable_ne g g' m d : g' <> g -> table g' (setTable g m d) = table g' d.
Proof. destruct g, g'; done. Qed.

Lemma caseNumber_setTable g m d : caseNumber (setTable g m d) = caseNumber d.
Proof. destruct g; reflexivity. Qed.

Lemma incomingFunctions_setTable g m d :
  incomingFunctions (setTable g m d) = incomingFunctions d.
Proof. destruct g; reflexivity. Qed.

Lemma verbose_setTable g m d : verbose (setTable g m d) = verbose d.
Proof. destruct g; reflexivity. Qed.

Lemma table_setCaseNumber g n d : table g (setCaseNumber n d) = table g d.
Proof. destruct g; reflexivity. Qed.

Lemma table_setIncomingFunctions g m d : table g (setIncomingFunctions m d) = table g d.
Proof. destruct g; reflexivity. Qed.

Lemma setTable_id g d : setTable g (table g d) d = d.
Proof. destruct g, d; reflexivity. Qed.

Lemma bindListen_id handle operations handler d :
  (bindListen handle operations handler d).1 = mkIdentifier operations handle (caseNumber d).
Proof. reflexivity. Qed.

Lemma bindListen_caseNumber handle operations handler d :
  caseNumber (bindListen handle operations handler d).2 = S (caseNumber d).
Proof. unfold bindListen. simpl. by rewrite caseNumber_setTable. Qed.

Lemma bindListen_incomingFunctions handle operations handler d :
  incomingFunctions (bindListen handle operations handler d).2 = incomingFunctions d.
Proof. unfold bindListen. simpl. by rewrite incomingFunctions_setTable. Qed.

Lemma bindListen_verbose handle operations handler d :
  verbose (bindListen handle operations handler d).2 = verbose d.
Proof. unfold bindListen. simpl. by rewrite verbose_setTable. Qed.

Lemma bindListen_table handle operations handler d g h :
  table g (bindListen handle operations handler d).2 !! h =
    if decide (g = operations /\ h = handle)
    then Some (Map.set (caseNumber d) handler (queueOf operations handle d))
    else table g d !! h.
Proof.
  unfold bindListen, queueOf. simpl. rewrite table_setTable, !table_setCaseNumber.
  destruct (decide (g = operations)) as [->|Hg].
  - destruct (decide (h = handle)) as [->|Hh].
    + rewrite lookup_insert_eq, decide_True by done.
      by destruct (table operations d !! handle).
    + rewrite lookup_insert_ne by done. rewrite decide_False by (intros [? ?]; done). done.
  - rewrite decide_False by (intros [? ?]; done). done.
Qed.

Lemma unbind_this i w :
  this (worldOf (unbind i w)) =
    match table (group i) (this w) !! handle i with
    | Some searchingMap =>
        setTable (group i)
          (<[handle i := (Map.delete (id i) searchingMap).2]> (table (group i) (this w)))
          (this w)
    | None => this w
    end.
Proof.
  unfold unbind. destruct (table (group i) (this w) !! handle i) as [q|]; [|done].
  by destruct (Map.delete (id i) q).
Qed.

Lemma unbind_output i w : output (worldOf (unbind i w)) = output w.
Proof.
  unfold unbind. destruct (table (group i) (this w) !! handle i) as [q|]; [|done].
  by destruct (Map.delete (id i) q).
Qed.

Lemma unbind_table i w g h :
  table g (this (worldOf (unbind i w))) !! h =
    if decide (g = group i /\ h = handle i)
    then (fun q => (Map.delete (id i) q).2) <$> table g (this w) !! h
    else table g (this w) !! h.
Proof.
  rewrite unbind_this.
  destruct (table (group i) (this w) !! handle i) as [q|] eqn:E.
  - rewrite table_setTable. destruct (decide (g = group i)) as [->|Hg].
    + destruct (decide (h = handle i)) as [->|Hh].
      * rewrite lookup_insert_eq, decide_True, E by done. done.
      * rewrite lookup_insert_ne by done. rewrite decide_False by (intros [? ?]; done). done.
    + rewrite decide_False by (intros [? ?]; done). done.
  - case_decide as H; [|done]. destruct H as [-> ->]. by rewrite E.
Qed.

Lemma unbind_caseNumber i w :
  caseNumber (this (worldOf (unbind i w))) = caseNumber (this w).
Proof.
  rewrite unbind_this. destruct (table _ _ !! _); [|done]. apply caseNumber_setTable.
Qed.

Lemma unbind_incomingFunctions i w :
  incomingFunctions (this (worldOf (unbind i w))) = incomingFunctions (this w).
Proof.
  rewrite unbind_this. destruct (table _ _ !! _); [|done]. apply incomingFunctions_setTable.
Qed.

(** ** Relations that every execution preserves *)

Section StableFacts.
Context (ok : Call -> Prop) (R : relation World) `{!Stable ok R}.

Local Abbreviation guarded := (guarded ok R).
Local Abbreviation StableM := (StableM ok R).

Local Instance guarded_preorder : PreOrder guarded.
Proof.
  split.
  - intros w Hw. split; [done | reflexivity].
  - intros w1 w2 w3 H12 H23 Hw. destruct (H12 Hw) as [Hw2 HR12].
    destruct (H23 Hw2) as [Hw3 HR23]. split; [done | by etrans].
Qed.

Lemma ret_stable {A} (a : A) : StableM (ret a).
Proof. intros w r H. inversion H; subst. reflexivity. Qed.

Lemma bind_stable {A B} (m : M A) (k : A -> M B) :
  StableM m -> (forall a, StableM (k a)) -> StableM (bind m k).
Proof.
  intros Hm Hk w r H. unfold bind in H.
  destruct (m w) as [[a w1|msg w1]|] eqn:E; [| |done].
  - etrans; [exact (Hm _ _ E) | exact (Hk _ _ _ H)].
  - inversion H; subst. exact (Hm _ _ E).
Qed.

Lemma after_stable {A} (m : M A) (f : World -> World) :
  (forall w, guarded w (f w)) -> StableM m -> StableM (fun w => m (f w)).
Proof. intros Hf Hm w r H. etrans; [apply Hf | exact (Hm _ _ H)]. Qed.

Lemma lift_stable {A} (f : World -> Result A) :
  (forall w, guarded w (worldOf (f w))) -> StableM (lift f).
Proof. intros Hf w r H. inversion H; subst. apply Hf. Qed.

Lemma emitOutput_stable o w : guarded w (emitOutput o w).
Proof. intros Hw. split; [exact Hw | apply stable_output]. Qed.

Lemma verbosePrint_stable message w : guarded w (verbosePrint message w).
Proof.
  unfold verbosePrint. destruct (verbose (this w)); [apply emitOutput_stable | reflexivity].
Qed.

Lemma bindIn_stable handle operations handler w :
  okHandler ok handler -> guarded w (worldOf (bindIn handle operations handler w)).
Proof.
  intros Hf [Ht Hfn]. unfold bindIn.
  pose proof (stable_bind handle operations handler w) as H.
  pose proof (bindListen_table handle operations handler (this w)) as Htab.
  pose proof (bindListen_incomingFunctions handle operations handler (this w)) as Hinc.
  destruct (bindListen handle operations handler (this w)) as [i d]. simpl in *.
  split; [split|exact H].
  - intros g h q. rewrite Htab. case_decide as Hgh.
    + intros [= <-]. apply values_set; [|done]. unfold queueOf.
      destruct (table operations (this w) !! handle) as [q0|] eqn:E; simpl;
        [eauto | constructor].
    + apply Ht.
  - intros h f. cbn [this]. rewrite Hinc. apply Hfn.
Qed.

Lemma unbind_stable i w : guarded w (worldOf (unbind i w)).
Proof.
  intros [Ht Hfn]. split; [split|apply stable_unbind].
  - intros g h q. rewrite unbind_table. case_decide as Hgh; [|apply Ht].
    destruct (table g (this w) !! h) as [q0|] eqn:E; [|done].
    intros [= <-]. apply values_delete. eauto.
  - intros h f. rewrite unbind_incomingFunctions. apply Hfn.
Qed.

Lemma handle_stable handle handler w :
  ok (Handle handle handler) -> guarded w (worldOf (handle_ handle handler w)).
Proof.
  intros Hc. unfold handle_. cbn [worldOf].
  etrans; [apply (verbosePrint_stable ["Bound FUNC: " +:+ quoted handle])|].
  intros [Ht Hfn]. split; [split|by apply stable_handle].
  - intros g h q. cbn [this]. rewrite table_setIncomingFunctions. apply Ht.
  - intros h f. cbn [this incomingFunctions setIncomingFunctions].
    destruct (decide (h = handle)) as [->|Hne].
    + rewrite lookup_insert_eq. intros [= <-]. by eapply stable_stored.
    + rewrite lookup_insert_ne by done. apply Hfn.
Qed.

Section WithRun.
Variable run : Call -> M value.
Hypothesis run_stable : forall c, ok c -> StableM (run c).

Lemma runBody_stable calls : Forall ok calls -> StableM (runBody run calls).
Proof.
  induction 1 as [|c calls Hc _ IH]; simpl.
  - apply ret_stable.
  - apply bind_stable; [by apply run_stable | intros _; exact IH].
Qed.

Lemma callHandler_stable args handler :
  okHandler ok handler -> StableM (callHandler run args handler).
Proof.
  intros Hf. unfold callHandler.
  apply (after_stable (bind _ _) (emitOutput _)); [intros; apply emitOutput_stable|].
  apply bind_stable; [apply runBody_stable, Hf | intros _; apply ret_stable].
Qed.

Lemma forOf_stable n operations handle args i :
  StableM (forOf run n operations handle args i).
Proof.
  revert i. induction n as [|n IH]; intros i w r H; simpl in H; [done|].
  destruct (table operations (this w) !! handle) as [queue|] eqn:Eq;
    [|inversion H; subst; reflexivity].
  destruct (queue !! i) as [[k [handler|]]|] eqn:Ei;
    [| exact (IH _ _ _ H) |inversion H; subst; reflexivity].
  intros Hw. assert (okHandler ok handler) as Hf.
  { destruct Hw as [Ht _]. specialize (Ht _ _ _ Eq).
    rewrite Forall_forall in Ht. apply Ht. by eapply lookup_values. }
  revert Hw. revert H.
  apply bind_stable; [by apply callHandler_stable | intros _ w' r' H'].
  case_decide; [exact (IH _ _ _ H') | done].
Qed.

Lemma forQueue_stable n queue operations handle args :
  StableM (forQueue run n queue operations handle args).
Proof. destruct queue; simpl; [apply forOf_stable | apply ret_stable]. Qed.

Lemma dispatch_stable n handle args : StableM (dispatch run n handle args).
Proof.
  intros w r. unfold dispatch.
  apply (after_stable (bind _ _) (verbosePrint _));
    [intros; apply verbosePrint_stable|].
  apply bind_stable; [apply forQueue_stable | intros _].
  apply bind_stable; [apply forQueue_stable | intros _; apply ret_stable].
Qed.
End WithRun.

Lemma exec_stable fuel c : ok c -> StableM (exec fuel c).
Proof.
  revert c. induction fuel as [|n IH]; intros c Hc; simpl; [done|].
  destruct c; [by apply dispatch_stable | apply lift_stable; intros w ..|].
  - unfold listen. etrans; [apply verbosePrint_stable|].
    apply bindIn_stable. by eapply stable_stored.
  - unfold listenPost. etrans; [apply verbosePrint_stable|].
    apply bindIn_stable. by eapply stable_stored.
  - apply unbind_stable.
  - unfold on. etrans; [apply verbosePrint_stable|].
    apply bindIn_stable. by eapply stable_stored.
  - by apply handle_stable.
  - apply emitOutput_stable.
  - apply emitOutput_stable.
  - apply emitOutput_stable.
  - intros w r H. inversion H; subst. reflexivity.
Qed.

Lemma step_stable fuel i : okInput ok i -> StableM (step fuel i).
Proof.
  destruct i as [c|player boundEvent args|player boundEvent args|boundEvent args];
    simpl; intros Hi w r H.
  - exact (exec_stable _ _ Hi _ _ H).
  - unfold onEvent in H.
    destruct (verifyRemoteExistance _ _) as [h|].
    + revert H. unfold handleEvent.
      apply bind_stable; [|intros _; apply ret_stable].
      apply forQueue_stable. intros c Hc. by apply exec_stable.
    + inversion H; subst. apply emitOutput_stable.
  - unfold onFunction in H.
    destruct (verifyRemoteExistance _ _) as [h|].
    + unfold handleFunction in H.
      destruct (incomingFunctions (this w) !! h) as [f|] eqn:E.
      * intros Hw. assert (okHandler ok f) as Hf by (destruct Hw as [_ Hfn]; eauto).
        revert Hw. revert H. apply callHandler_stable; [|done].
        intros c Hc. by apply exec_stable.
      * inversion H; subst. reflexivity.
    + inversion H; subst. apply emitOutput_stable.
  - revert H. apply dispatch_stable. intros c Hc. by apply exec_stable.
Qed.

Lemma steps_stable w w' : stepsOf (okInput ok) w w' -> guarded w w'.
Proof.
  induction 1 as [w|w fuel i r w' Hi Hs _ IH]; [reflexivity|].
  etrans; [exact (step_stable _ _ Hi _ _ Hs) | exact IH].
Qed.
End StableFacts.

Lemma okHandler_any f : okHandler anyCall f.
Proof. intros args. apply Forall_forall. done. Qed.

Lemma okWorld_any w : okWorld anyCall w.
Proof.
  split.
  - intros g h q _. apply Forall_forall. intros f _. apply okHandler_any.
  - intros h f _. apply okHandler_any.
Qed.

Lemma okInput_any i : okInput anyCall i.
Proof. by destruct i. Qed.

Section Unguarded.
Context (R : relation World) `{!Stable anyCall R}.

Lemma exec_preserves fuel c w r : exec fuel c w = Some r -> R w (worldOf r).
Proof.
  intros H. exact (proj2 (exec_stable anyCall R fuel c I w r H (okWorld_any w))).
Qed.

Lemma step_preserves fuel i w r : step fuel i w = Some r -> R w (worldOf r).
Proof.
  intros H.
  exact (proj2 (step_stable anyCall R fuel i (okInput_any i) w r H (okWorld_any w))).
Qed.

Lemma steps_preserves w w' : steps w w' -> R w w'.
Proof.
  intros H. apply (steps_stable anyCall R); [|apply okWorld_any].
  unfold steps in H. induction H; econstructor; eauto using okInput_any.
Qed.
End Unguarded.

(** ** Two stable relations *)

Global Instance counterGrows_stable : Stable anyCall counterGrows.
Proof.
  split; unfold counterGrows.
  - split; [intros w; lia | intros w1 w2 w3; simpl; lia].
  - intros c f _ _. apply okHandler_any.
  - intros o w. simpl. lia.
  - intros handle operations handler w. cbn [this]. rewrite bindListen_caseNumber. lia.
  - intros i w. rewrite unbind_caseNumber. lia.
  - intros handle handler w _. simpl. lia.
Qed.

Global Instance handlesKept_stable : Stable anyCall handlesKept.
Proof.
  split; unfold handlesKept.
  - split; [intros w g h; done | intros w1 w2 w3 H1 H2 g h H; eauto].
  - intros c f _ _. apply okHandler_any.
  - intros o w g h. done.
  - intros handle operations handler w g h H. cbn [this]. rewrite bindListen_table.
    case_decide; [eauto | done].
  - intros i w g h H. rewrite unbind_table.
    case_decide; [|done]. destruct H as [q ->]. simpl. eauto.
  - intros handle handler w _ g h. simpl. by rewrite table_setIncomingFunctions.
Qed.

(** ** More fuel changes no result *)

Lemma extends_refl {A} (m : M A) : extends m m.
Proof. by intros w r. Qed.

Lemma bind_extends {A B} (m m' : M A) (k k' : A -> M B) :
  extends m m' -> (forall a, extends (k a) (k' a)) -> extends (bind m k) (bind m' k').
Proof.
  intros Hm Hk w r. unfold bind.
  destruct (m w) as [[a w1|msg w1]|] eqn:E; [| |done]; rewrite (Hm _ _ E); [apply Hk | done].
Qed.

Lemma runBody_extends run run' calls :
  (forall c, extends (run c) (run' c)) -> extends (runBody run calls) (runBody run' calls).
Proof.
  intros Hrun. induction calls as [|c calls IH]; simpl; [apply extends_refl|].
  apply bind_extends; [apply Hrun | intros _; exact IH].
Qed.

Lemma callHandler_extends run run' args f :
  (forall c, extends (run c) (run' c)) ->
  extends (callHandler run args f) (callHandler run' args f).
Proof.
  intros Hrun w. unfold callHandler.
  apply bind_extends; [by apply runBody_extends | intros _; apply extends_refl].
Qed.

Lemma forOf_extends run run' n n' g h args i :
  (forall c, extends (run c) (run' c)) -> n <= n' ->
  extends (forOf run n g h args i) (forOf run' n' g h args i).
Proof.
  intros Hrun. revert n' i. induction n as [|n IH]; intros n' i Hn w r; [done|].
  destruct n' as [|n']; [lia|]. cbn [forOf].
  destruct (table g (this w) !! h) as [q|]; [|done].
  destruct (q !! i) as [[k [f|]]|]; [|apply IH; lia|done].
  apply bind_extends; [by apply callHandler_extends | intros _ w' r'].
  case_decide; [apply IH; lia | done].
Qed.

Lemma dispatch_extends run run' n n' handle args :
  (forall c, extends (run c) (run' c)) -> n <= n' ->
  extends (dispatch run n handle args) (dispatch run' n' handle args).
Proof.
  intros Hrun Hn w. unfold dispatch.
  assert (forall o g, extends (forQueue run n o g handle args)
                        (forQueue run' n' o g handle args)) as Hq.
  { intros [q|] g; simpl; [by apply forOf_extends | apply extends_refl]. }
  apply bind_extends; [apply Hq | intros _].
  apply bind_extends; [apply Hq | intros _; apply extends_refl].
Qed.

Lemma exec_extends n n' c : n <= n' -> extends (exec n c) (exec n' c).
Proof.
  revert n' c. induction n as [|n IH]; intros n' c Hn; [done|].
  destruct n' as [|n']; [lia|]. destruct c; try apply extends_refl.
  cbn [exec]. apply dispatch_extends; [|lia]. intros c. apply IH. lia.
Qed.

Lemma step_extends n n' i : n <= n' -> extends (step n i) (step n' i).
Proof.
  intros Hn. destruct i as [c|player boundEvent args|player boundEvent args|boundEvent args];
    cbn [step].
  - by apply exec_extends.
  - intros w. unfold onEvent. destruct (verifyRemoteExistance _ _) as [h|]; [|done].
    unfold handleEvent. apply bind_extends; [|intros _; apply extends_refl].
    destruct (incomingEvents (this w) !! h); simpl; [|apply extends_refl].
    apply forOf_extends; [|done]. intros c. by apply exec_extends.
  - intros w. unfold onFunction. destruct (verifyRemoteExistance _ _) as [h|]; [|done].
    unfold handleFunction. destruct (incomingFunctions (this w) !! h); [|done].
    apply callHandler_extends. intros c. by apply exec_extends.
  - apply dispatch_extends; [|done]. intros c. by apply exec_extends.
Qed.

(** ** Subscribing *)

Lemma verbosePrint_this message w : this (verbosePrint message w) = this w.
Proof. unfold verbosePrint. by destruct (verbose (this w)). Qed.

Lemma verbosePrint_output message w :
  output (verbosePrint message w) =
    output w ++ if verbose (this w) then [Printed ("DISPATCHER:" :: message)] else [].
Proof. unfold verbosePrint. destruct (verbose (this w)); simpl; by rewrite ?app_nil_r. Qed.

Lemma bindIn_spec handle operations handler w :
  bindIn handle operations handler w =
    Returned (VIdentifier (mkIdentifier operations handle (caseNumber (this w))))
      (mkWorld (bindListen handle operations handler (this w)).2 (output w)).
Proof. reflexivity. Qed.

(** A call that subscribes returns the identifier made of the table, the
    handle and the current value of the counter, and binds the handler. *)
Lemma subscribes_inv fuel c w r :
  subscribes c -> exec fuel c w = Some r ->
  exists operations handle handler w',
    stored c = Some handler /\
    r = Returned (VIdentifier (mkIdentifier operations handle (caseNumber (this w)))) w' /\
    this w' = (bindListen handle operations handler (this w)).2.
Proof.
  destruct fuel as [|n]; [done|]. destruct c; try done; intros _ [= <-].
  - exists boundOperationsRef, handle0, handler. eexists. split; [done|].
    unfold listen. rewrite bindIn_spec, verbosePrint_this. split; reflexivity.
  - exists boundPostOperationsRef, handle0, handler. eexists. split; [done|].
    unfold listenPost. rewrite bindIn_spec, verbosePrint_this. split; reflexivity.
  - exists incomingEventsRef, handle0, handler. eexists. split; [done|].
    unfold on. rewrite bindIn_spec, verbosePrint_this. split; reflexivity.
Qed.

Lemma subscribes_id fuel c w i w' :
  subscribes c -> exec fuel c w = Some (Returned (VIdentifier i) w') ->
  id i = caseNumber (this w) /\ caseNumber (this w') = S (caseNumber (this w)) /\
  is_Some (table (group i) (this w') !! handle i).
Proof.
  intros Hc H.
  destruct (subscribes_inv _ _ _ _ Hc H) as (g & h & f & w'' & _ & [= -> ->] & Hthis).
  rewrite Hthis. cbn [id group handle]. rewrite bindListen_caseNumber, bindListen_table.
  rewrite decide_True by done. eauto.
Qed.

(** ** Identifiers *)

(** C7. Of two subscriptions ([listen], [listenPost] or [on], on any handle
    and in any table) made one after the other on an instance, whatever
    happens between them (dispatches, messages, [unbind] of the first
    included), the second returns a strictly greater id: ids are strictly
    increasing, distinct across the tables, and never used again. *)
Theorem identifiers_strictly_increase w1 fuel1 c1 i1 w1' w2 fuel2 c2 i2 w2' :
  subscribes c1 -> exec fuel1 c1 w1 = Some (Returned (VIdentifier i1) w1') ->
  steps w1' w2 ->
  subscribes c2 -> exec fuel2 c2 w2 = Some (Returned (VIdentifier i2) w2') ->
  id i1 < id i2.
Proof.
  intros Hc1 H1 Hsteps Hc2 H2.
  destruct (subscribes_id _ _ _ _ _ Hc1 H1) as (Hi1 & Hn1 & _).
  destruct (subscribes_id _ _ _ _ _ Hc2 H2) as (Hi2 & _ & _).
  pose proof (steps_preserves counterGrows _ _ Hsteps) as Hle.
  unfold counterGrows in Hle. lia.
Qed.

(** C9. An identifier returned by [listen], [listenPost] or [on] can be given
    to [unbind] at any later time, whatever happened in between: the [Map] of
    its handle is still in its table, so [unbind] returns a boolean and does
    not throw. *)
Theorem unbind_never_raises w1 fuel c i w1' w2 :
  subscribes c -> exec fuel c w1 = Some (Returned (VIdentifier i) w1') ->
  steps w1' w2 ->
  is_Some (table (group i) (this w2) !! handle i) /\
  exists existed w3,
    forall fuel', exec (S fuel') (Unbind i) w2 = Some (Returned (VBoolean existed) w3).
Proof.
  intros Hc H Hsteps.
  destruct (subscribes_id _ _ _ _ _ Hc H) as (_ & _ & Hin).
  apply (steps_preserves handlesKept _ _ Hsteps) in Hin.
  split; [exact Hin|]. destruct Hin as [q Hq].
  exists (Map.delete (id i) q).1, (worldOf (unbind i w2)). intros fuel'.
  simpl. unfold lift, unbind.
  rewrite Hq. destruct (Map.delete (id i) q) as [b q']. reflexivity.
Qed.

(** ** Dispatch of a handle that was never bound *)

Lemma dispatch_unbound run n handle args w :
  boundOperations (this w) !! handle = None ->
  boundPostOperations (this w) !! handle = None ->
  dispatch run n handle args w =
    Some (Returned VUndefined (verbosePrint [queuedMessage handle None None] w)).
Proof. intros H1 H2. unfold dispatch. rewrite H1, H2. reflexivity. Qed.

(** C8. When neither [boundOperations] nor [boundPostOperations] has the
    handle, [dispatch] returns without throwing, leaves the instance as it
    was, and calls no handler: all it does is the line it prints when the
    instance is verbose. *)
Theorem dispatch_unbound_is_noop fuel handle args w :
  boundOperations (this w) !! handle = None ->
  boundPostOperations (this w) !! handle = None ->
  exists w',
    exec (S fuel) (Dispatch handle args) w = Some (Returned VUndefined w') /\
    this w' = this w /\
    output w' =
      output w ++
        if verbose (this w)
        then [Printed ["DISPATCHER:"; "Queued " +:+ quoted handle +:+ " with 0 bound."]]
        else [].
Proof.
  intros H1 H2. eexists. split; [|split].
  - simpl. by apply dispatch_unbound.
  - apply verbosePrint_this.
  - rewrite verbosePrint_output. reflexivity.
Qed.

Lemma after_steps fuel inputs w w' : after fuel inputs w = Some w' -> steps w w'.
Proof.
  revert w. induction inputs as [|i inputs IH]; intros w H; simpl in H.
  - inversion H; subst. constructor.
  - destruct (step fuel i w) as [r|] eqn:E; [|done].
    econstructor; [done | exact E | exact (IH _ H)].
Qed.


(** ** The output only grows *)

Global Instance outputGrows_stable : Stable anyCall outputGrows.
Proof.
  split; unfold outputGrows.
  - split.
    + intros w. exists []. by rewrite app_nil_r.
    + intros w1 w2 w3 [r1 H1] [r2 H2]. exists (r1 ++ r2). by rewrite H2, H1, app_assoc.
  - intros c f _ _. apply okHandler_any.
  - intros o w. by exists [o].
  - intros handle operations handler w. exists []. simpl. by rewrite app_nil_r.
  - intros i w. exists []. by rewrite unbind_output, app_nil_r.
  - intros handle handler w _. exists []. simpl. by rewrite app_nil_r.
Qed.

(** ** Messages with an unknown handle *)

Lemma verifyRemoteExistance_None {T} (key : value) (table : gmap string T) :
  (forall s, key = VString s -> table !! s = None) ->
  verifyRemoteExistance key table = None.
Proof.
  intros H. destruct key as [| | |s| |]; try done. simpl. by rewrite (H s eq_refl).
Qed.

(** C3, as the code has it. On the server, a message whose handle is not a
    string or is not a key of [incomingEvents] gives exactly one warning, which
    names the sender, calls no handler and leaves the instance as it was. On
    the client there is no such check: the message is dispatched, and when
    neither table has the handle no handler is called and nothing is warned
    (a verbose instance prints its usual line). *)
Theorem unknown_handle_on_each_side fuel player boundHandle args server handle client :
  (forall s, boundHandle = VString s -> incomingEvents (this server) !! s = None) ->
  boundOperations (this client) !! handle = None ->
  boundPostOperations (this client) !! handle = None ->
  step fuel (OnServerEvent player boundHandle args) server =
    Some (Returned VUndefined
            (emitOutput (Warned (Name player +:+ " tried to fire a non-existant event!"))
               server)) /\
  exists client',
    step fuel (OnClientEvent handle args) client = Some (Returned VUndefined client') /\
    this client' = this client /\
    warnings (output client') = warnings (output client) /\
    invocations (output client') = invocations (output client).
Proof.
  intros Hs Hc1 Hc2. split.
  - simpl. unfold onEvent. by rewrite verifyRemoteExistance_None.
  - eexists. split; [by apply dispatch_unbound|]. split; [apply verbosePrint_this|].
    rewrite verbosePrint_output. unfold warnings, invocations. rewrite !omap_app.
    destruct (verbose (this client)); simpl; by rewrite !app_nil_r.
Qed.


(** ** Calling one handler *)

Lemma callHandler_quiet run args handler w :
  body handler args = [] ->
  callHandler run args handler w =
    Some (Returned (result handler args) (emitOutput (Invoked handler args) w)).
Proof. intros H. unfold callHandler. rewrite H. reflexivity. Qed.

Lemma callHandler_result run args handler w v w' :
  callHandler run args handler w = Some (Returned v w') -> v = result handler args.
Proof.
  unfold callHandler, bind. destruct (runBody run _ _) as [[[] w1|msg w1]|]; [|done..].
  intros H. inversion H. reflexivity.
Qed.

Lemma callHandler_output fuel args handler w r :
  callHandler (exec fuel) args handler w = Some r ->
  exists rest, output (worldOf r) = output w ++ Invoked handler args :: rest.
Proof.
  unfold callHandler. intros H.
  assert (StableM anyCall outputGrows
            (do! runBody (exec fuel) (body handler args) in ret (result handler args)))
    as Hst.
  { apply (bind_stable anyCall outputGrows); [|intros ?; apply (ret_stable anyCall outputGrows)].
    apply (runBody_stable anyCall outputGrows); [|apply okHandler_any].
    intros c _. by apply (exec_stable anyCall outputGrows). }
  destruct (Hst _ _ H (okWorld_any _)) as [_ [rest Hrest]].
  exists rest. rewrite Hrest. simpl. by rewrite <- app_assoc.
Qed.

(** ** Function responders *)

Lemma handle_spec handle handler w :
  exists w',
    handle_ handle handler w = Returned VUndefined w' /\
    incomingFunctions (this w') = <[handle := handler]> (incomingFunctions (this w)) /\
    (forall g, table g (this w') = table g (this w)) /\
    caseNumber (this w') = caseNumber (this w).
Proof.
  eexists. split; [reflexivity|]. cbn [this].
  rewrite !verbosePrint_this. split; [done|]. split; [|done].
  intros g. apply table_setIncomingFunctions.
Qed.

Lemma onFunction_registered fuel player handle args handler w :
  incomingFunctions (this w) !! handle = Some handler ->
  onFunction fuel player (VString handle) args w =
    callHandler (exec fuel) (VPlayer player :: args) handler w.
Proof.
  intros H. unfold onFunction, handleFunction. simpl. rewrite H. simpl. by rewrite H.
Qed.

(** C5. After [handle(h, f1)] then [handle(h, f2)], the responder of [h] is
    [f2]; an invoke of [h] that reaches the instance is the call of [f2] with
    the sender put before the arguments, what it returns is what [f2] returns,
    and the first thing it does is to call [f2]; when the body of [f2] makes no
    call to the dispatcher, [f2] is all that is called. [f1] is gone. *)
Theorem handle_replaces fuel handle f1 f2 player args w :
  let w2 := worldOf (handle_ handle f2 (worldOf (handle_ handle f1 w))) in
  let args' := VPlayer player :: args in
  let invoke := step fuel (OnServerInvoke player (VString handle) args) w2 in
  incomingFunctions (this w2) !! handle = Some f2 /\
  invoke = callHandler (exec fuel) args' f2 w2 /\
  (forall v w', invoke = Some (Returned v w') ->
     v = result f2 args' /\ exists rest, output w' = output w2 ++ Invoked f2 args' :: rest) /\
  (body f2 args' = [] ->
     invoke = Some (Returned (result f2 args') (emitOutput (Invoked f2 args') w2))).
Proof.
  intros w2 args' invoke.
  assert (incomingFunctions (this w2) !! handle = Some f2) as Hf2.
  { subst w2. destruct (handle_spec handle f1 w) as (w1 & -> & _). cbn [worldOf].
    destruct (handle_spec handle f2 w1) as (w2 & -> & Hfn & _). cbn [worldOf].
    rewrite Hfn. apply lookup_insert_eq. }
  assert (invoke = callHandler (exec fuel) args' f2 w2) as Hinvoke.
  { subst invoke. simpl. by apply onFunction_registered. }
  split; [exact Hf2|]. split; [exact Hinvoke|]. split.
  - intros v w' H. rewrite Hinvoke in H. split.
    + by eapply callHandler_result.
    + exact (callHandler_output _ _ _ _ _ H).
  - intros Hquiet. rewrite Hinvoke. by apply callHandler_quiet.
Qed.


(** ** The responder of a handle *)

Lemma handlerNeverHandles_body h f :
  handlerNeverHandles h f -> okHandler (neverHandles h) f.
Proof.
  destruct f as [l b r]. intros H args. simpl in *. specialize (H args).
  induction (b args) as [|c calls IH]; constructor; [apply H | apply IH, H].
Qed.

Global Instance responderKept_stable h : Stable (neverHandles h) (responderKept h).
Proof.
  split; unfold responderKept.
  - split; [intros w; done | intros w1 w2 w3 H1 H2; by rewrite H2].
  - intros c f Hc Hf. apply handlerNeverHandles_body.
    destruct c; simpl in Hf; try done; injection Hf as <-; simpl in Hc; tauto.
  - intros o w. done.
  - intros handle operations handler w. cbn [this].
    by rewrite bindListen_incomingFunctions.
  - intros i w. by rewrite unbind_incomingFunctions.
  - intros handle handler w [Hne _]. simpl. by rewrite lookup_insert_ne.
Qed.

(** C10. [unbind] leaves [incomingFunctions] as it is, whatever identifier it
    is given; [handle] returns [undefined], so there is no identifier to give
    back for a responder; and along every history in which no script and no
    handler calls [handle(h, ...)], the responder of [h] stays what it was. *)
Theorem responder_stays h :
  (forall i w, incomingFunctions (this (worldOf (unbind i w))) = incomingFunctions (this w)) /\
  (forall f w, exists w',
      handle_ h f w = Returned VUndefined w' /\
      incomingFunctions (this w') !! h = Some f) /\
  (forall w w',
      okWorld (neverHandles h) w ->
      stepsOf (okInput (neverHandles h)) w w' ->
      incomingFunctions (this w') !! h = incomingFunctions (this w) !! h).
Proof.
  split; [|split].
  - intros i w. apply unbind_incomingFunctions.
  - intros f w. destruct (handle_spec h f w) as (w' & Hw' & Hfn & _).
    exists w'. split; [exact Hw'|]. rewrite Hfn. apply lookup_insert_eq.
  - intros w w' Hok Hsteps.
    exact (proj2 (steps_stable (neverHandles h) (responderKept h) w w' Hsteps Hok)).
Qed.


(** ** More facts on [Map] *)

Section MapOrder.
Context {V : Type}.
Implicit Types (m : Map.t V) (k : nat) (v : V).

(** [delete] says whether the key was there. *)
Lemma delete_fst k m : (Map.delete k m).1 = bool_decide (k ∈ Map.keys m).
Proof.
  induction m as [|[k' [v'|]] m IH]; cbn [Map.delete].
  - symmetry. apply bool_decide_eq_false_2, not_elem_of_nil.
  - rewrite keys_cons_Some. destruct (decide (k' = k)) as [->|Hk].
    + symmetry. apply bool_decide_eq_true_2. left.
    + destruct (Map.delete k m) as [b m'']. cbn [fst] in *. rewrite IH.
      apply bool_decide_ext. rewrite elem_of_cons. intuition congruence.
  - rewrite keys_cons_None. by destruct (Map.delete k m) as [b m''].
Qed.

Lemma delete_absent k m : k ∉ Map.keys m -> Map.delete k m = (false, m).
Proof.
  induction m as [|[k' [v'|]] m IH]; simpl; intros Hk.
  - done.
  - rewrite keys_cons_Some in Hk. apply not_elem_of_cons in Hk as [Hne Hm].
    rewrite decide_False by done. by rewrite IH.
  - rewrite keys_cons_None in Hk. by rewrite IH.
Qed.

Lemma stays m : Forall2 staysOrCleared m m.
Proof. induction m; constructor; [split; [done | by left] | done]. Qed.

Lemma filter_all {A} (P : A -> Prop) `{!forall x, Decision (P x)} (l : list A) :
  Forall P l -> filter P l = l.
Proof.
  induction 1 as [|x l Hx _ IH]; [done|]. by rewrite filter_cons_True, IH.
Qed.

(** [delete] clears slots where they are. *)
Lemma delete_cleared k m : Forall2 staysOrCleared m (Map.delete k m).2.
Proof.
  induction m as [|[k' [v'|]] m IH]; simpl.
  - constructor.
  - case_decide.
    + constructor; [split; [done | by right] | apply stays].
    + destruct (Map.delete k m) as [b m'']. constructor; [split; [done | by left] | exact IH].
  - destruct (Map.delete k m) as [b m'']. constructor; [split; [done | by left] | exact IH].
Qed.

(** With keys that differ, [delete] removes the entry of the key and no
    other, and the entries that are left keep their order. *)
Lemma entries_delete k m :
  NoDup (Map.keys m) ->
  Map.entries (Map.delete k m).2 = filter (fun e => e.1 <> k) (Map.entries m).
Proof.
  induction m as [|[k' [v'|]] m IH]; cbn [Map.delete]; intros Hnd.
  - done.
  - rewrite keys_cons_Some in Hnd. apply NoDup_cons in Hnd as [Hk' Hnd].
    rewrite entries_cons_Some. case_decide as Hk.
    + subst k'. rewrite filter_cons_False by (simpl; tauto).
      cbn [snd]. rewrite entries_cons_None.
      symmetry. apply filter_all. apply Forall_forall. intros [k0 v0] He Heq.
      simpl in Heq. subst k0.
      apply Hk'. unfold Map.keys. apply list_elem_of_fmap. by exists (k, v0).
    + rewrite filter_cons_True by done.
      specialize (IH Hnd). destruct (Map.delete k m) as [b m'']. cbn [snd] in *.
      by rewrite entries_cons_Some, IH.
  - rewrite keys_cons_None in Hnd. specialize (IH Hnd).
    destruct (Map.delete k m) as [b m'']. cbn [snd] in *.
    by rewrite !entries_cons_None.
Qed.
End MapOrder.


Section MapGrowth.
Context {V : Type}.
Implicit Types (m : Map.t V) (k : nat) (v : V).

Lemma cleared_slots m m' : Forall2 staysOrCleared m m' -> Map.slots m' = Map.slots m.
Proof.
  induction 1 as [|s s' m m' [Hs _] _ IH]; [done|].
  unfold Map.slots in *. rewrite !fmap_cons. by f_equal.
Qed.

Lemma cleared_entries m m' e :
  Forall2 staysOrCleared m m' -> e ∈ Map.entries m' -> e ∈ Map.entries m.
Proof.
  induction 1 as [|[k o] [k' o'] m m' [Hk Ho] _ IH]; [done|]. simpl in Hk, Ho. subst k'.
  destruct Ho as [->| ->].
  - destruct o as [v|]; [|by rewrite !entries_cons_None].
    rewrite !entries_cons_Some, !elem_of_cons. intros [?|?]; auto.
  - rewrite entries_cons_None. intros He. specialize (IH He).
    destruct o as [v|]; [rewrite entries_cons_Some; by right | by rewrite entries_cons_None].
Qed.

Lemma cleared_keys m m' k :
  Forall2 staysOrCleared m m' -> k ∈ Map.keys m' -> k ∈ Map.keys m.
Proof.
  intros Hc Hk. unfold Map.keys in *. apply list_elem_of_fmap in Hk as (e & -> & He).
  apply list_elem_of_fmap. exists e. split; [done | by eapply cleared_entries].
Qed.

Lemma cleared_trans m1 m2 m3 :
  Forall2 staysOrCleared m1 m2 -> Forall2 staysOrCleared m2 m3 ->
  Forall2 staysOrCleared m1 m3.
Proof.
  intros H12. revert m3. induction H12 as [|s1 s2 m1 m2 Hs _ IH]; intros m3 H23.
  - inversion H23. constructor.
  - inversion H23 as [|? s3 ? m3' Hs' Hm']; subst. constructor; [|auto].
    unfold staysOrCleared in *. destruct Hs as [Hk Ho], Hs' as [Hk' Ho'].
    split; [congruence|].
    destruct Ho as [Ho|Ho], Ho' as [Ho'|Ho']; [left | right | right | right]; congruence.
Qed.


Lemma keysBelow_mono b b' m : b <= b' -> keysBelow b m -> keysBelow b' m.
Proof.
  intros Hb [HS HB]. split; [exact HS|].
  eapply Forall_impl; [exact HB|]. intros k Hk. simpl in Hk. lia.
Qed.

Lemma keysBelow_nil b : keysBelow b (Map.empty : Map.t V).
Proof. split; constructor. Qed.

Lemma keysBelow_fresh b m k : keysBelow b m -> b <= k -> k ∉ Map.slots m.
Proof.
  intros [_ HB] Hk Hin. rewrite Forall_forall in HB. specialize (HB _ Hin). simpl in HB. lia.
Qed.

Lemma keysBelow_absent b m k : keysBelow b m -> b <= k -> k ∉ Map.keys m.
Proof. intros Hm Hk Hin. by eapply keysBelow_fresh, keys_slots. Qed.

Lemma keysBelow_NoDup b m : keysBelow b m -> NoDup (Map.keys m).
Proof. intros [Hnd _]. exact (sublist_NoDup _ _ Hnd (keys_sublist m)). Qed.

Lemma keysBelow_keys b m : keysBelow b m -> Forall (fun k => k < b) (Map.keys m).
Proof.
  intros [_ HB]. rewrite Forall_forall in *. intros k Hk. by apply HB, keys_slots.
Qed.

Lemma keysBelow_set k v m : keysBelow k m -> keysBelow (S k) (Map.set k v m).
Proof.
  intros Hm. pose proof (keysBelow_absent _ _ k Hm (le_n k)) as Hk.
  unfold keysBelow. rewrite (slots_set_fresh k v m Hk). split.
  - apply NoDup_cons. split; [done | by eapply keysBelow_NoDup].
  - constructor; [lia|]. eapply Forall_impl; [by eapply keysBelow_keys|].
    intros x Hx. simpl in Hx. lia.
Qed.

Lemma keysBelow_delete b k m : keysBelow b m -> keysBelow b (Map.delete k m).2.
Proof. unfold keysBelow. by rewrite slots_delete. Qed.

Lemma grownFrom_refl b m : grownFrom b m m.
Proof. left. apply stays. Qed.

Lemma grownFrom_trans b b' m1 m2 m3 :
  b <= b' -> grownFrom b m1 m2 -> grownFrom b' m2 m3 -> grownFrom b m1 m3.
Proof.
  intros Hb [H12|(k & Hk & Hbk)] [H23|(k' & Hk' & Hbk')].
  - left. by eapply cleared_trans.
  - right. exists k'. split; [done | lia].
  - right. exists k. split; [|done]. by rewrite (cleared_slots _ _ H23).
  - right. exists k'. split; [done | lia].
Qed.

Lemma grownFrom_set b k v m : k ∉ Map.keys m -> b <= k -> grownFrom b m (Map.set k v m).
Proof.
  intros Hk Hb. right. exists k. split; [|done].
  rewrite (slots_set_fresh k v m Hk). left.
Qed.

Lemma grownFrom_delete b k m : grownFrom b m (Map.delete k m).2.
Proof. left. apply delete_cleared. Qed.

End MapGrowth.


(** ** Worlds stay well-formed, and their queues only grow *)

Lemma evolves_this w w' : this w' = this w -> evolves w w'.
Proof.
  intros H. unfold evolves. rewrite H. split; [lia|].
  intros g h q Hq. exists q. split; [done | apply grownFrom_refl].
Qed.

Lemma evolves_refl w : evolves w w.
Proof. by apply evolves_this. Qed.

Lemma evolves_trans w1 w2 w3 : evolves w1 w2 -> evolves w2 w3 -> evolves w1 w3.
Proof.
  intros [Hc12 H12] [Hc23 H23]. split; [lia|]. intros g h q Hq.
  destruct (H12 _ _ _ Hq) as (q2 & Hq2 & Hg2).
  destruct (H23 _ _ _ Hq2) as (q3 & Hq3 & Hg3).
  exists q3. split; [done|]. by eapply grownFrom_trans.
Qed.

Lemma wf_construct studio : wf (construct studio).
Proof.
  intros g h q. unfold construct. rewrite verbosePrint_this.
  destruct g; simpl; by rewrite lookup_empty.
Qed.

Lemma wf_queueOf w g h : wf w -> keysBelow (caseNumber (this w)) (queueOf g h (this w)).
Proof.
  intros Hw. unfold queueOf. destruct (table g (this w) !! h) as [q|] eqn:E; simpl.
  - by eapply Hw.
  - apply keysBelow_nil.
Qed.

Lemma bind_orderly handle operations handler w :
  orderly w (mkWorld (bindListen handle operations handler (this w)).2 (output w)).
Proof.
  intros Hw. split.
  - intros g h q. cbn [this]. rewrite bindListen_caseNumber, bindListen_table.
    case_decide as Hgh.
    + intros [= <-]. apply keysBelow_set, wf_queueOf, Hw.
    + intros Hq. eapply keysBelow_mono; [|by eapply Hw]. lia.
  - split; cbn [this]; [rewrite bindListen_caseNumber; lia|].
    intros g h q Hq. rewrite bindListen_table. case_decide as Hgh.
    + destruct Hgh as [-> ->]. eexists. split; [done|].
      unfold queueOf. rewrite Hq. simpl.
      apply grownFrom_set; [|done]. eapply keysBelow_absent; [by eapply Hw | done].
    + exists q. split; [done | apply grownFrom_refl].
Qed.

Lemma unbind_orderly i w : orderly w (worldOf (unbind i w)).
Proof.
  intros Hw. split.
  - intros g h q. rewrite unbind_caseNumber, unbind_table. case_decide as Hgh.
    + destruct (table g (this w) !! h) as [q0|] eqn:E; [|done].
      intros [= <-]. apply keysBelow_delete. by eapply Hw.
    + apply Hw.
  - split; [rewrite unbind_caseNumber; lia|].
    intros g h q Hq. rewrite unbind_table, Hq. case_decide as Hgh.
    + eexists. split; [done | apply grownFrom_delete].
    + exists q. split; [done | apply grownFrom_refl].
Qed.

Global Instance orderly_stable : Stable anyCall orderly.
Proof.
  split.
  - split.
    + intros w Hw. split; [done | apply evolves_refl].
    + intros w1 w2 w3 H12 H23 Hw. destruct (H12 Hw) as [Hw2 He12].
      destruct (H23 Hw2) as [Hw3 He23]. split; [done | by eapply evolves_trans].
  - intros c f _ _. apply okHandler_any.
  - intros o w Hw. split; [exact Hw | by apply evolves_this].
  - apply bind_orderly.
  - apply unbind_orderly.
  - intros handle handler w _ Hw. split.
    + intros g h q. cbn [this]. rewrite table_setIncomingFunctions. apply Hw.
    + split; [simpl; lia|]. intros g h q. cbn [this].
      rewrite table_setIncomingFunctions. intros Hq.
      exists q. split; [done | apply grownFrom_refl].
Qed.

Lemma reachable_wf w : reachable w -> wf w.
Proof.
  intros [studio Hsteps].
  exact (proj1 (steps_preserves orderly _ _ Hsteps (wf_construct studio))).
Qed.


(** ** Loops over handlers that do not call the dispatcher *)

Lemma queueOf_lookup g h d (q : OperationIdArray) :
  table g d !! h = Some q -> queueOf g h d = q.
Proof. intros H. unfold queueOf. by rewrite H. Qed.

Lemma invokeAll_nil args w : invokeAll args [] w = w.
Proof. destruct w. unfold invokeAll. simpl. by rewrite app_nil_r. Qed.

Lemma invokeAll_cons args f fs w :
  invokeAll args (f :: fs) w = invokeAll args fs (emitOutput (Invoked f args) w).
Proof. unfold invokeAll, emitOutput. simpl. by rewrite <- app_assoc. Qed.

Lemma invokeAll_this args fs w : this (invokeAll args fs w) = this w.
Proof. reflexivity. Qed.

Lemma forOf_quiet run n g h args i w (q : OperationIdArray) :
  table g (this w) !! h = Some q ->
  Forall (quietOn args) (Map.values (drop i q)) ->
  length q - i < n ->
  forOf run n g h args i w =
    Some (Returned tt (invokeAll args (Map.values (drop i q)) w)).
Proof.
  revert i w. induction n as [|n IH]; intros i w Hq Hquiet Hn; [lia|].
  cbn [forOf]. rewrite Hq. destruct (q !! i) as [[k [f|]]|] eqn:Ei.
  - rewrite (drop_S _ _ _ Ei), values_cons_Some in *.
    inversion Hquiet as [|? ? Hf Hrest]; subst.
    unfold bind. rewrite callHandler_quiet by exact Hf.
    rewrite decide_True by (cbn [emitOutput this]; by rewrite (queueOf_lookup _ _ _ _ Hq)).
    rewrite invokeAll_cons. apply IH; [done | done |].
    apply lookup_lt_Some in Ei. lia.
  - rewrite (drop_S _ _ _ Ei), values_cons_None in *.
    apply IH; [done | done |]. apply lookup_lt_Some in Ei. lia.
  - apply lookup_ge_None in Ei. rewrite drop_ge by done.
    by rewrite invokeAll_nil.
Qed.

Lemma forQueue_quiet run n g h args w :
  Forall (quietOn args) (Map.values (queueOf g h (this w))) ->
  length (queueOf g h (this w)) < n ->
  forQueue run n (table g (this w) !! h) g h args w =
    Some (Returned tt (invokeAll args (Map.values (queueOf g h (this w))) w)).
Proof.
  unfold queueOf. destruct (table g (this w) !! h) as [q|] eqn:Eq; simpl; intros Hquiet Hn.
  - rewrite (forOf_quiet run n g h args 0 w q) by (rewrite ?drop_0; done || lia).
    by rewrite drop_0.
  - by rewrite invokeAll_nil.
Qed.

(** [dispatch], when the handlers under the handle do not call the
    dispatcher: the primary handlers, then the post handlers, each in the
    order of its [Map], with the arguments as they are. *)
Lemma dispatch_quiet run n handle args w :
  let primary := queueOf boundOperationsRef handle (this w) in
  let post := queueOf boundPostOperationsRef handle (this w) in
  Forall (quietOn args) (Map.values primary ++ Map.values post) ->
  length primary < n -> length post < n ->
  dispatch run n handle args w =
    Some (Returned VUndefined
            (invokeAll args (Map.values post)
               (invokeAll args (Map.values primary)
                  (verbosePrint
                     [queuedMessage handle (boundOperations (this w) !! handle)
                        (boundPostOperations (this w) !! handle)] w)))).
Proof.
  intros primary post Hquiet Hn1 Hn2. apply Forall_app in Hquiet as [Hq1 Hq2].
  unfold dispatch, bind.
  set (w0 := verbosePrint _ w).
  assert (this w0 = this w) as Hw0 by apply verbosePrint_this.
  change (boundOperations (this w) !! handle)
    with (table boundOperationsRef (this w) !! handle).
  change (boundPostOperations (this w) !! handle)
    with (table boundPostOperationsRef (this w) !! handle).
  rewrite <- Hw0.
  rewrite forQueue_quiet by (rewrite Hw0; done).
  set (w1 := invokeAll args _ w0).
  assert (this w1 = this w0) as Hw1 by reflexivity.
  rewrite <- Hw1.
  rewrite forQueue_quiet by (rewrite Hw1, Hw0; done).
  subst w1. rewrite Hw1, Hw0. reflexivity.
Qed.

(** The same for a message received by the server: the handlers of
    [incomingEvents], with the sender before the arguments. *)
Lemma handleEvent_quiet fuel player handle args w :
  let inbound := queueOf incomingEventsRef handle (this w) in
  Forall (quietOn (VPlayer player :: args)) (Map.values inbound) ->
  length inbound < fuel ->
  handleEvent fuel player handle args w =
    Some (Returned VUndefined (invokeAll (VPlayer player :: args) (Map.values inbound) w)).
Proof.
  intros inbound Hquiet Hn. unfold handleEvent, bind.
  change (incomingEvents (this w) !! handle)
    with (table incomingEventsRef (this w) !! handle).
  by rewrite forQueue_quiet.
Qed.

Lemma invocations_invokeAll args fs w :
  invocations (output (invokeAll args fs w)) =
    invocations (output w) ++ ((fun f => (f, args)) <$> fs).
Proof.
  unfold invokeAll, invocations. simpl. rewrite omap_app. f_equal.
  induction fs as [|f fs IH]; [done|]. rewrite !fmap_cons. simpl. by f_equal.
Qed.

Lemma warnings_invokeAll args fs w :
  warnings (output (invokeAll args fs w)) = warnings (output w).
Proof.
  unfold invokeAll, warnings. simpl. rewrite omap_app.
  assert (omap (fun o => match o with Warned m => Some m | _ => None end)
            ((fun f => Invoked f args) <$> fs) = []) as ->.
  { induction fs as [|f fs IH]; simpl; done. }
  by rewrite app_nil_r.
Qed.

Lemma invocations_verbosePrint message w :
  invocations (output (verbosePrint message w)) = invocations (output w).
Proof.
  rewrite verbosePrint_output. unfold invocations. rewrite omap_app.
  destruct (verbose (this w)); simpl; by rewrite app_nil_r.
Qed.

Lemma warnings_verbosePrint message w :
  warnings (output (verbosePrint message w)) = warnings (output w).
Proof.
  rewrite verbosePrint_output. unfold warnings. rewrite omap_app.
  destruct (verbose (this w)); simpl; by rewrite app_nil_r.
Qed.


(** ** Loops over handlers whose calls are plain *)

Lemma perform_exec handle fuel c w :
  plain handle c = true ->
  exists v, exec (S fuel) c w = Some (Returned v (perform c w)).
Proof.
  destruct c; try done; intros _; cbn [exec perform]; unfold lift.
  - unfold listen. rewrite bindIn_spec. eauto.
  - unfold listenPost. rewrite bindIn_spec. eauto.
  - unfold on. rewrite bindIn_spec. eauto.
  - unfold handle_. eauto.
  - unfold emit. eauto.
  - unfold broadcast. eauto.
  - unfold clientEmit. eauto.
Qed.

(** A plain call leaves the queues of the handle as they are. *)
Lemma perform_table handle c w g :
  plain handle c = true ->
  table g (this (perform c w)) !! handle = table g (this w) !! handle.
Proof.
  destruct c; try done; cbn [plain perform]; intros Hc;
    try apply bool_decide_eq_true_1 in Hc.
  - unfold listen. rewrite bindIn_spec. cbn [worldOf this].
    rewrite bindListen_table, verbosePrint_this. by rewrite decide_False by (intros [_ ?]; done).
  - unfold listenPost. rewrite bindIn_spec. cbn [worldOf this].
    rewrite bindListen_table, verbosePrint_this. by rewrite decide_False by (intros [_ ?]; done).
  - unfold on. rewrite bindIn_spec. cbn [worldOf this].
    rewrite bindListen_table, verbosePrint_this. by rewrite decide_False by (intros [_ ?]; done).
  - unfold handle_. cbn [worldOf this].
    by rewrite table_setIncomingFunctions, verbosePrint_this.
Qed.

(** A plain call calls no handler. *)
Lemma perform_invocations handle c w :
  plain handle c = true ->
  invocations (output (perform c w)) = invocations (output w).
Proof.
  destruct c; try done; cbn [plain perform]; intros _.
  - unfold listen. rewrite bindIn_spec. apply invocations_verbosePrint.
  - unfold listenPost. rewrite bindIn_spec. apply invocations_verbosePrint.
  - unfold on. rewrite bindIn_spec. apply invocations_verbosePrint.
  - unfold handle_. apply invocations_verbosePrint.
  - unfold invocations. simpl. rewrite omap_app. simpl. by rewrite app_nil_r.
  - unfold invocations. simpl. rewrite omap_app. simpl. by rewrite app_nil_r.
  - unfold invocations. simpl. rewrite omap_app. simpl. by rewrite app_nil_r.
Qed.

Lemma runBody_plain handle fuel calls w :
  Forall (fun c => plain handle c = true) calls ->
  runBody (exec (S fuel)) calls w =
    Some (Returned tt (foldl (fun w c => perform c w) w calls)).
Proof.
  intros Hcalls. revert w. induction Hcalls as [|c calls Hc _ IH]; intros w; [done|].
  cbn [runBody foldl]. unfold bind.
  destruct (perform_exec handle fuel c w Hc) as [v ->]. apply IH.
Qed.

Lemma callHandler_plain handle fuel args f w :
  plainOn handle args f ->
  callHandler (exec (S fuel)) args f w = Some (Returned (result f args) (called args f w)).
Proof.
  intros Hf. unfold callHandler, bind, called.
  by rewrite (runBody_plain handle fuel _ _ Hf).
Qed.

Lemma performAll_table handle calls w g :
  Forall (fun c => plain handle c = true) calls ->
  table g (this (foldl (fun w c => perform c w) w calls)) !! handle =
    table g (this w) !! handle.
Proof.
  intros Hcalls. revert w. induction Hcalls as [|c calls Hc _ IH]; intros w; [done|].
  cbn [foldl]. by rewrite IH, perform_table.
Qed.

Lemma performAll_invocations handle calls w :
  Forall (fun c => plain handle c = true) calls ->
  invocations (output (foldl (fun w c => perform c w) w calls)) = invocations (output w).
Proof.
  intros Hcalls. revert w. induction Hcalls as [|c calls Hc _ IH]; intros w; [done|].
  cbn [foldl]. by rewrite IH, (perform_invocations handle).
Qed.

Lemma called_table handle args f w g :
  plainOn handle args f ->
  table g (this (called args f w)) !! handle = table g (this w) !! handle.
Proof. intros Hf. unfold called. by rewrite performAll_table. Qed.

Lemma called_invocations handle args f w :
  plainOn handle args f ->
  invocations (output (called args f w)) = invocations (output w) ++ [(f, args)].
Proof.
  intros Hf. unfold called. rewrite (performAll_invocations handle) by done.
  unfold invocations. simpl. by rewrite omap_app.
Qed.

Lemma calledAll_cons args f fs w :
  calledAll args (f :: fs) w = calledAll args fs (called args f w).
Proof. reflexivity. Qed.



Lemma calledAll_invocations handle args fs w :
  Forall (plainOn handle args) fs ->
  invocations (output (calledAll args fs w)) =
    invocations (output w) ++ ((fun f => (f, args)) <$> fs).
Proof.
  intros Hfs. revert w. induction Hfs as [|f fs Hf _ IH]; intros w.
  - by rewrite app_nil_r.
  - rewrite calledAll_cons, IH, (called_invocations handle) by done.
    by rewrite fmap_cons, <- app_assoc.
Qed.

(** Handlers that call nothing make plain calls only, and calling them is
    all that happens. *)
Lemma quiet_plain handle args f : quietOn args f -> plainOn handle args f.
Proof. unfold quietOn, plainOn. intros ->. constructor. Qed.

Lemma calledAll_quiet args fs w :
  Forall (quietOn args) fs -> calledAll args fs w = invokeAll args fs w.
Proof.
  intros Hfs. revert w. induction Hfs as [|f fs Hf _ IH]; intros w.
  - by rewrite invokeAll_nil.
  - rewrite calledAll_cons, invokeAll_cons, <- IH. unfold called. by rewrite Hf.
Qed.






(** ** Registrations in sequence *)

Lemma size_length {V} (m : Map.t V) : Map.size m <= length m.
Proof.
  unfold Map.size. induction m as [|[k [v|]] m IH]; [simpl; lia|..].
  - rewrite entries_cons_Some. simpl. lia.
  - rewrite entries_cons_None. simpl. lia.
Qed.

(** After [set] with a key that is not there, the table has one slot for each
    of its entries. *)
Lemma length_set_fresh {V} k (v : V) (m : Map.t V) :
  k ∉ Map.keys m -> length (Map.set k v m) = S (Map.size m).
Proof.
  intros Hk. unfold Map.set. rewrite has_absent by done.
  rewrite length_fmap, place_Permutation. reflexivity.
Qed.

Lemma wf_this w w' : this w' = this w -> wf w -> wf w'.
Proof. intros H Hw g h q. rewrite H. apply Hw. Qed.

Lemma subscribe_this r w :
  this (worldOf (subscribe r w)) =
    (bindListen (regHandle r) (regTable r) (regHandler r) (this w)).2.
Proof.
  unfold subscribe. destruct (regTable r);
    unfold listen, listenPost, on; rewrite bindIn_spec; cbn [worldOf this];
    by rewrite verbosePrint_this.
Qed.

Lemma subscribe_wf r w : wf w -> wf (worldOf (subscribe r w)).
Proof.
  intros Hw.
  destruct (bind_orderly (regHandle r) (regTable r) (regHandler r) w Hw) as [Hw' _].
  eapply wf_this; [|exact Hw']. by rewrite subscribe_this.
Qed.

Lemma subscribe_caseNumber r w :
  caseNumber (this (worldOf (subscribe r w))) = S (caseNumber (this w)).
Proof. rewrite subscribe_this. apply bindListen_caseNumber. Qed.

Lemma subscribe_queue r w g h :
  queueOf g h (this (worldOf (subscribe r w))) =
    if decide (g = regTable r /\ h = regHandle r)
    then Map.set (caseNumber (this w)) (regHandler r) (queueOf g h (this w))
    else queueOf g h (this w).
Proof.
  unfold queueOf at 1. rewrite subscribe_this, bindListen_table.
  case_decide as Hgh; [|done]. by destruct Hgh as [-> ->].
Qed.

(** A subscription adds its entry to the queue of its handle in its table,
    under the value of the counter, and leaves the other queues alone. *)
Lemma subscribe_entries r w g h :
  wf w ->
  Map.entries (queueOf g h (this (worldOf (subscribe r w)))) ≡ₚ
    (if decide (g = regTable r /\ h = regHandle r)
     then [(caseNumber (this w), regHandler r)] else [])
      ++ Map.entries (queueOf g h (this w)).
Proof.
  intros Hw. rewrite subscribe_queue. case_decide as Hgh; [|done].
  apply entries_set_fresh. eapply keysBelow_absent; [by apply wf_queueOf | done].
Qed.

Lemma subscribe_length r w g h :
  wf w ->
  length (queueOf g h (this (worldOf (subscribe r w)))) <=
    (if decide (g = regTable r /\ h = regHandle r) then 1 else 0)
      + length (queueOf g h (this w)).
Proof.
  intros Hw. rewrite subscribe_queue. case_decide as Hgh; [|done].
  rewrite length_set_fresh by (eapply keysBelow_absent; [by apply wf_queueOf | done]).
  pose proof (size_length (queueOf g h (this w))). lia.
Qed.

Lemma subscribe_handle r w g h :
  is_Some (table g (this (worldOf (subscribe r w))) !! h) <->
  (g = regTable r /\ h = regHandle r) \/ is_Some (table g (this w) !! h).
Proof.
  rewrite subscribe_this, bindListen_table. case_decide as Hgh.
  - split; [by left | eauto].
  - split; [by right | by intros [?|?]].
Qed.

Lemma handlersOf_cons g h r regs :
  handlersOf g h (r :: regs) =
    if decide (g = regTable r /\ h = regHandle r)
    then regHandler r :: handlersOf g h regs
    else handlersOf g h regs.
Proof.
  unfold handlersOf. rewrite filter_cons.
  destruct (decide (g = regTable r /\ h = regHandle r)) as [[-> ->]|Hne].
  - by rewrite decide_True.
  - rewrite decide_False; [done|]. intros [<- <-]. by apply Hne.
Qed.

Lemma handlersOf_length g h regs : length (handlersOf g h regs) <= length regs.
Proof. unfold handlersOf. rewrite length_fmap. apply length_filter. Qed.

Lemma handlersOf_entriesOf g h n regs : (entriesOf g h n regs).*2 = handlersOf g h regs.
Proof.
  revert n. induction regs as [|r regs IH]; intros n; [done|].
  cbn [entriesOf]. rewrite fmap_app, IH, handlersOf_cons. by case_decide.
Qed.

Lemma subscribeAll_cons r regs w :
  subscribeAll (r :: regs) w = subscribeAll regs (worldOf (subscribe r w)).
Proof. reflexivity. Qed.

Lemma subscribeAll_wf regs w : wf w -> wf (subscribeAll regs w).
Proof.
  revert w. induction regs as [|r regs IH]; intros w Hw; [done|].
  rewrite subscribeAll_cons. by apply IH, subscribe_wf.
Qed.

(** After the registrations, the counter has grown by their number, and a
    queue holds what it held and the handlers registered under its handle,
    each under the value the counter had at its registration. *)
Lemma subscribeAll_entries regs w g h :
  wf w ->
  caseNumber (this (subscribeAll regs w)) = caseNumber (this w) + length regs /\
  Map.entries (queueOf g h (this (subscribeAll regs w))) ≡ₚ
    Map.entries (queueOf g h (this w)) ++ entriesOf g h (caseNumber (this w)) regs /\
  length (queueOf g h (this (subscribeAll regs w))) <=
    length (queueOf g h (this w)) + length regs.
Proof.
  revert w. induction regs as [|r regs IH]; intros w Hw.
  - simpl. rewrite app_nil_r. split; [lia|]. split; [done | lia].
  - rewrite subscribeAll_cons.
    destruct (IH _ (subscribe_wf r w Hw)) as (IHc & IHe & IHl).
    rewrite IHc, IHe, subscribe_entries, subscribe_caseNumber by done.
    pose proof (subscribe_length r w g h Hw) as Hl.
    split; [simpl; lia|]. split.
    + cbn [entriesOf]. case_decide; simpl.
      * by rewrite <- Permutation_middle.
      * done.
    + simpl. case_decide; lia.
Qed.

Lemma subscribeAll_queue regs w g h :
  wf w ->
  Map.values (queueOf g h (this (subscribeAll regs w))) ≡ₚ
    Map.values (queueOf g h (this w)) ++ handlersOf g h regs /\
  length (queueOf g h (this (subscribeAll regs w))) <=
    length (queueOf g h (this w)) + length regs.
Proof.
  intros Hw. destruct (subscribeAll_entries regs w g h Hw) as (_ & He & Hl).
  split; [|exact Hl]. unfold Map.values. by rewrite He, fmap_app, handlersOf_entriesOf.
Qed.

Lemma subscribeAll_handle regs w g h :
  handlersOf g h regs <> [] \/ is_Some (table g (this w) !! h) ->
  is_Some (table g (this (subscribeAll regs w)) !! h).
Proof.
  revert w. induction regs as [|r regs IH]; intros w H.
  - destruct H as [H|H]; [by destruct H | done].
  - rewrite subscribeAll_cons. apply IH. rewrite handlersOf_cons in H.
    rewrite subscribe_handle.
    case_decide as Hgh; [by right; left|]. destruct H as [H|H]; [by left | by right; right].
Qed.

Lemma queueOf_construct g h studio : queueOf g h (this (construct studio)) = Map.empty.
Proof.
  unfold construct, queueOf. rewrite verbosePrint_this.
  destruct g; simpl; by rewrite lookup_empty.
Qed.

Lemma caseNumber_construct studio : caseNumber (this (construct studio)) = 0.
Proof. unfold construct. by rewrite verbosePrint_this. Qed.

(** On a new instance: the queue of a handle holds the handlers registered
    under it, in the order in which [pairs] walks them. *)
Lemma registered_queue studio regs g h :
  let w := subscribeAll regs (construct studio) in
  Map.values (queueOf g h (this w)) ≡ₚ handlersOf g h regs /\
  length (queueOf g h (this w)) <= length regs.
Proof.
  intros w.
  destruct (subscribeAll_queue regs (construct studio) g h (wf_construct studio))
    as [Hv Hl].
  rewrite queueOf_construct in Hv, Hl. simpl in Hv, Hl. by split.
Qed.


(** ** Dispatch after a sequence of registrations *)

(** What [dispatch] does in a world whose handlers under the handle are
    quiet, in terms of the queues of the world. *)
Lemma dispatch_registered fuel handle args w :
  let primary := queueOf boundOperationsRef handle (this w) in
  let post := queueOf boundPostOperationsRef handle (this w) in
  Forall (quietOn args) (Map.values primary ++ Map.values post) ->
  length primary < fuel -> length post < fuel ->
  exists w',
    exec (S fuel) (Dispatch handle args) w = Some (Returned VUndefined w') /\
    this w' = this w /\
    invocations (output w') =
      invocations (output w) ++
        ((fun f => (f, args)) <$> Map.values primary) ++
        ((fun f => (f, args)) <$> Map.values post) /\
    warnings (output w') = warnings (output w).
Proof.
  intros primary post Hquiet Hn1 Hn2. eexists. split.
  - cbn [exec]. by apply dispatch_quiet.
  - split; [by rewrite !invokeAll_this, verbosePrint_this|]. split.
    + by rewrite !invocations_invokeAll, invocations_verbosePrint, app_assoc.
    + by rewrite !warnings_invokeAll, warnings_verbosePrint.
Qed.


(** ** Messages received by the server *)

Lemma onEvent_registered fuel player handle args w :
  is_Some (incomingEvents (this w) !! handle) ->
  onEvent fuel player (VString handle) args w = handleEvent fuel player handle args w.
Proof. intros [q Hq]. unfold onEvent. simpl. by rewrite Hq. Qed.

(** The client hands a received message to [dispatch] as it is. *)
Lemma client_handleEvent_is_dispatch fuel handle args w :
  step fuel (OnClientEvent handle args) w = exec (S fuel) (Dispatch handle args) w.
Proof. reflexivity. Qed.



(** ** Unbinding *)

Lemma steps_trans w1 w2 w3 : steps w1 w2 -> steps w2 w3 -> steps w1 w3.
Proof.
  unfold steps. induction 1 as [|w fuel i r w' Hi Hs _ IH]; [done|].
  intros H3. econstructor; [exact Hi | exact Hs | by apply IH].
Qed.

Lemma exec_steps fuel c w r : exec fuel c w = Some r -> steps w (worldOf r).
Proof.
  intros H. apply (steps_step _ w fuel (Script c) r); [done | exact H | constructor].
Qed.

Lemma reachable_steps w w' : reachable w -> steps w w' -> reachable w'.
Proof. intros [studio H] H'. exists studio. by eapply steps_trans. Qed.

Section MapDelete.
Context {V : Type}.
Implicit Types (m : Map.t V) (k : nat) (v : V).

Lemma keys_assign k v m : Map.keys (Map.assign k v m) = Map.keys m.
Proof.
  induction m as [|[k' [v'|]] m IH]; cbn [Map.assign]; [done|..].
  - case_decide; [by subst | by rewrite !keys_cons_Some, IH].
  - by rewrite !keys_cons_None.
Qed.

Lemma has_set k v m : Map.has k (Map.set k v m) = true.
Proof.
  rewrite has_keys. apply bool_decide_eq_true_2.
  destruct (Map.has k m) eqn:Hhas.
  - unfold Map.set. rewrite Hhas, keys_assign.
    rewrite has_keys in Hhas. by apply bool_decide_eq_true_1 in Hhas.
  - assert (k ∉ Map.keys m) as Hk.
    { rewrite has_keys in Hhas. by apply bool_decide_eq_false_1 in Hhas. }
    unfold Map.keys. rewrite (entries_set_fresh k v m Hk). left.
Qed.

Lemma keys_entries m : Map.keys m = (Map.entries m).*1.
Proof. reflexivity. Qed.

Lemma filter_key_length k (l : list (nat * V)) :
  NoDup l.*1 -> k ∈ l.*1 ->
  S (length (filter (fun e => e.1 <> k) l)) = length l.
Proof.
  induction l as [|[k' v'] l IH]; simpl; intros Hnd Hin.
  - by apply elem_of_nil in Hin.
  - apply NoDup_cons in Hnd as [Hk' Hnd].
    destruct (decide (k' = k)) as [->|Hne].
    + rewrite filter_cons_False by (simpl; tauto).
      rewrite filter_all; [done|]. apply Forall_forall. intros [k0 v0] He Heq.
      simpl in Heq. subst k0. apply Hk'. apply list_elem_of_fmap. by exists (k, v0).
    + rewrite filter_cons_True by done. simpl. f_equal. apply IH; [done|].
      apply elem_of_cons in Hin as [Heq|Hin]; [congruence | done].
Qed.

Lemma keys_delete_absent k m : NoDup (Map.keys m) -> k ∉ Map.keys (Map.delete k m).2.
Proof.
  intros Hnd. rewrite keys_entries, entries_delete by done.
  intros Hin. apply list_elem_of_fmap in Hin as ([k0 v0] & Hk & Hin).
  apply list_elem_of_filter in Hin as [Hne _]. simpl in *. congruence.
Qed.
End MapDelete.

Lemma unbind_found i w (q : OperationIdArray) :
  table (group i) (this w) !! handle i = Some q ->
  unbind i w =
    Returned (VBoolean (bool_decide (id i ∈ Map.keys q)))
      (mkWorld
         (setTable (group i)
            (<[handle i := (Map.delete (id i) q).2]> (table (group i) (this w))) (this w))
         (output w)).
Proof.
  intros Hq. unfold unbind. rewrite Hq. rewrite <- delete_fst.
  by destruct (Map.delete (id i) q).
Qed.

Lemma unbind_absent i w (q : OperationIdArray) :
  table (group i) (this w) !! handle i = Some q ->
  id i ∉ Map.keys q ->
  unbind i w = Returned (VBoolean false) w.
Proof.
  intros Hq Hk. rewrite (unbind_found i w q Hq).
  rewrite bool_decide_eq_false_2 by done. rewrite delete_absent by done. simpl.
  rewrite insert_id by done. rewrite setTable_id. by destruct w.
Qed.

Lemma has_queueOf k g h d :
  Map.has k (queueOf g h d) = true ->
  exists q : OperationIdArray, table g d !! h = Some q /\ k ∈ Map.keys q.
Proof.
  unfold queueOf. destruct (table g d !! h) as [q|]; simpl; [|done].
  rewrite has_keys. intros H. apply bool_decide_eq_true_1 in H. eauto.
Qed.

(** A subscription leaves its registration in the queue of its handle. *)
Lemma subscribes_registered fuel c w i w' :
  subscribes c -> exec fuel c w = Some (Returned (VIdentifier i) w') ->
  Map.has (id i) (queueOf (group i) (handle i) (this w')) = true.
Proof.
  intros Hc H.
  destruct (subscribes_inv _ _ _ _ Hc H) as (g & h & f & w'' & _ & [= -> ->] & Hthis).
  cbn [id group handle]. unfold queueOf at 1.
  rewrite Hthis, bindListen_table, decide_True by done. simpl. apply has_set.
Qed.


(** What [unbind] does to a registration that is there, in a well-formed
    world. *)
Lemma unbind_registered i w :
  wf w ->
  Map.has (id i) (queueOf (group i) (handle i) (this w)) = true ->
  exists w',
    unbind i w = Returned (VBoolean true) w' /\
    (forall g h,
       Map.entries (queueOf g h (this w')) =
         filter (fun e => ~ (g = group i /\ h = handle i /\ e.1 = id i))
           (Map.entries (queueOf g h (this w)))) /\
    S (Map.size (queueOf (group i) (handle i) (this w'))) =
      Map.size (queueOf (group i) (handle i) (this w)) /\
    incomingFunctions (this w') = incomingFunctions (this w) /\
    caseNumber (this w') = caseNumber (this w) /\
    output w' = output w /\
    unbind i w' = Returned (VBoolean false) w'.
Proof.
  intros Hw Hhas. destruct (has_queueOf _ _ _ _ Hhas) as (q & Hq & Hk).
  pose proof (keysBelow_NoDup _ _ (Hw _ _ _ Hq)) as Hnd.
  pose proof (unbind_found i w q Hq) as Hu.
  rewrite bool_decide_eq_true_2 in Hu by done.
  eexists. split; [exact Hu|].
  set (w' := mkWorld _ _) in *.
  assert (this (worldOf (unbind i w)) = this w') as Hthis by (by rewrite Hu).
  assert (forall g h, table g (this w') !! h =
            if decide (g = group i /\ h = handle i)
            then Some (Map.delete (id i) q).2 else table g (this w) !! h) as Htab.
  { intros g h. rewrite <- Hthis, unbind_table. case_decide as Hgh; [|done].
    destruct Hgh as [-> ->]. by rewrite Hq. }
  split; [|split; [|split; [|split; [|split]]]].
  - intros g h. unfold queueOf at 1. rewrite Htab. case_decide as Hgh.
    + destruct Hgh as [-> ->]. simpl. rewrite (queueOf_lookup _ _ _ _ Hq).
      rewrite entries_delete by done. apply list_filter_iff. intros [k v]. simpl. tauto.
    + fold (queueOf g h (this w)). symmetry. apply filter_all, Forall_forall.
      intros e _. tauto.
  - unfold queueOf at 1. rewrite Htab, decide_True by done. simpl.
    rewrite (queueOf_lookup _ _ _ _ Hq). unfold Map.size.
    rewrite entries_delete by done. by apply filter_key_length.
  - rewrite <- Hthis. apply unbind_incomingFunctions.
  - rewrite <- Hthis. apply unbind_caseNumber.
  - reflexivity.
  - apply (unbind_absent i w' (Map.delete (id i) q).2).
    + by rewrite Htab, decide_True.
    + by apply keys_delete_absent.
Qed.

(** C2. In the life of an instance, an identifier returned by [listen],
    [listenPost] or [on] names a registration that is there when the call
    returns. While it is there, [unbind] with the identifier returns [true]
    and removes the entry of that id from the queue of that handle in that
    table: one entry less there, and every other entry of every queue, the
    responders and the counter as they were. [unbind] with the same identifier
    again returns [false], does not throw, and changes nothing. *)
Theorem unbind_twice w fuel c i w1 :
  reachable w ->
  subscribes c -> exec fuel c w = Some (Returned (VIdentifier i) w1) ->
  Map.has (id i) (queueOf (group i) (handle i) (this w1)) = true /\
  forall w2,
    steps w1 w2 ->
    Map.has (id i) (queueOf (group i) (handle i) (this w2)) = true ->
    exists w3,
      unbind i w2 = Returned (VBoolean true) w3 /\
      (forall g h,
         Map.entries (queueOf g h (this w3)) =
           filter (fun e => ~ (g = group i /\ h = handle i /\ e.1 = id i))
             (Map.entries (queueOf g h (this w2)))) /\
      S (Map.size (queueOf (group i) (handle i) (this w3))) =
        Map.size (queueOf (group i) (handle i) (this w2)) /\
      incomingFunctions (this w3) = incomingFunctions (this w2) /\
      caseNumber (this w3) = caseNumber (this w2) /\
      output w3 = output w2 /\
      unbind i w3 = Returned (VBoolean false) w3.
Proof.
  intros Hreach Hc Hexec. split; [by eapply subscribes_registered|].
  intros w2 Hsteps Hhas. apply unbind_registered; [|exact Hhas].
  apply reachable_wf. eapply reachable_steps; [|exact Hsteps].
  eapply reachable_steps; [exact Hreach|]. exact (exec_steps _ _ _ _ Hexec).
Qed.




(** ** A pass over a queue that changes during the pass *)


Section MapPositions.
Context {V : Type}.
Implicit Types (m : Map.t V) (k : nat) (v : V).




End MapPositions.





(** A pass has no result when a handler subscribes under the handle and in
    the table of the pass: the slots of the queue are no longer those that
    the walk began with. *)
Lemma forOf_subscribing fuel n g h args i w (q : OperationIdArray) k f v w1 :
  wf w ->
  table g (this w) !! h = Some q ->
  q !! i = Some (k, Some f) ->
  callHandler (exec fuel) args f w = Some (Returned v w1) ->
  (exists k', k' ∈ Map.keys (queueOf g h (this w1)) /\ caseNumber (this w) <= k') ->
  forOf (exec fuel) (S n) g h args i w = None.
Proof.
  intros Hw Hq Ei Hcall (k' & Hk' & Hge).
  cbn [forOf]. rewrite Hq, Ei. unfold bind. rewrite Hcall.
  rewrite decide_False; [done|]. intros Hslots.
  apply (keysBelow_fresh _ _ k' (Hw _ _ _ Hq) Hge).
  rewrite <- Hslots. by apply keys_slots.
Qed.


Lemma after_stepsOf allowed fuel inputs w w' :
  Forall allowed inputs -> after fuel inputs w = Some w' -> stepsOf allowed w w'.
Proof.
  intros Hall. revert w. induction Hall as [|i inputs Hi _ IH]; intros w H; simpl in H.
  - inversion H; subst. constructor.
  - destruct (step fuel i w) as [r|] eqn:E; [|done].
    econstructor; [exact Hi | exact E | exact (IH _ H)].
Qed.



(** * Further properties *)

(** ** Relations kept by every call, stated on the operations themselves *)

Section Keeping.
Context (R : relation World) `{!PreOrder R}.
Hypothesis R_invoked : forall f args w, R w (emitOutput (Invoked f args) w).
Hypothesis R_print : forall message w, R w (verbosePrint message w).
Hypothesis R_call :
  forall c w r, isDispatch c = false -> exec 1 c w = Some r -> R w (worldOf r).

Lemma ret_keeps {A} (a : A) : Keeps R (ret a).
Proof. intros w r H. inversion H; subst. reflexivity. Qed.

Lemma bind_keeps {A B} (m : M A) (k : A -> M B) :
  Keeps R m -> (forall a, Keeps R (k a)) -> Keeps R (bind m k).
Proof.
  intros Hm Hk w r H. unfold bind in H.
  destruct (m w) as [[a w1|msg w1]|] eqn:E; [| |done].
  - etrans; [exact (Hm _ _ E) | exact (Hk _ _ _ H)].
  - inversion H; subst. exact (Hm _ _ E).
Qed.

Lemma runBody_keeps run calls : (forall c, Keeps R (run c)) -> Keeps R (runBody run calls).
Proof.
  intros Hrun. induction calls as [|c calls IH]; simpl; [apply ret_keeps|].
  apply bind_keeps; [apply Hrun | intros _; exact IH].
Qed.

Lemma callHandler_keeps run args f :
  (forall c, Keeps R (run c)) -> Keeps R (callHandler run args f).
Proof.
  intros Hrun w r H. unfold callHandler in H. etrans; [apply (R_invoked f args)|].
  revert H. apply bind_keeps; [by apply runBody_keeps | intros _; apply ret_keeps].
Qed.

Lemma forOf_keeps run n g h args i :
  (forall c, Keeps R (run c)) -> Keeps R (forOf run n g h args i).
Proof.
  intros Hrun. revert i. induction n as [|n IH]; intros i w r H; [done|].
  cbn [forOf] in H. destruct (table g (this w) !! h) as [q|];
    [|inversion H; subst; reflexivity].
  destruct (q !! i) as [[k [f|]]|]; [|exact (IH _ _ _ H)|inversion H; subst; reflexivity].
  revert H. apply bind_keeps; [by apply callHandler_keeps | intros _ w' r' H'].
  case_decide; [exact (IH _ _ _ H') | done].
Qed.

Lemma forQueue_keeps run n o g h args :
  (forall c, Keeps R (run c)) -> Keeps R (forQueue run n o g h args).
Proof. intros Hrun. destruct o; simpl; [by apply forOf_keeps | apply ret_keeps]. Qed.

Lemma dispatch_keeps run n handle args :
  (forall c, Keeps R (run c)) -> Keeps R (dispatch run n handle args).
Proof.
  intros Hrun w r H. unfold dispatch in H. etrans; [apply R_print|].
  refine (bind_keeps _ _ _ _ _ _ H); [by apply forQueue_keeps | intros _].
  apply bind_keeps; [by apply forQueue_keeps | intros _; apply ret_keeps].
Qed.

Lemma exec_keeps fuel c : Keeps R (exec fuel c).
Proof.
  revert c. induction fuel as [|n IH]; intros c; [done|].
  destruct c as [h a|h f|h f|i|h f|h f|p h a|h a|h a|m];
    [cbn [exec]; by apply dispatch_keeps | intros w r H ..].
  - exact (R_call (Listen h f) w r eq_refl H).
  - exact (R_call (ListenPost h f) w r eq_refl H).
  - exact (R_call (Unbind i) w r eq_refl H).
  - exact (R_call (On h f) w r eq_refl H).
  - exact (R_call (Handle h f) w r eq_refl H).
  - exact (R_call (Emit p h a) w r eq_refl H).
  - exact (R_call (Broadcast h a) w r eq_refl H).
  - exact (R_call (ClientEmit h a) w r eq_refl H).
  - exact (R_call (Raise m) w r eq_refl H).
Qed.

Hypothesis R_warned : forall message w, R w (emitOutput (Warned message) w).

Lemma step_keeps fuel i : Keeps R (step fuel i).
Proof.
  destruct i as [c|player boundEvent args|player boundEvent args|boundEvent args];
    cbn [step]; intros w r H.
  - exact (exec_keeps _ _ _ _ H).
  - unfold onEvent in H. destruct (verifyRemoteExistance _ _) as [h|].
    + revert H. unfold handleEvent.
      apply bind_keeps; [|intros _; apply ret_keeps].
      apply forQueue_keeps, exec_keeps.
    + inversion H; subst. apply R_warned.
  - unfold onFunction in H. destruct (verifyRemoteExistance _ _) as [h|].
    + unfold handleFunction in H. destruct (incomingFunctions (this w) !! h).
      * revert H. apply callHandler_keeps, exec_keeps.
      * inversion H; subst. reflexivity.
    + inversion H; subst. apply R_warned.
  - revert H. apply dispatch_keeps, exec_keeps.
Qed.

Lemma steps_keeps w w' : steps w w' -> R w w'.
Proof.
  unfold steps. induction 1 as [w|w fuel i r w' _ Hs _ IH]; [reflexivity|].
  etrans; [exact (step_keeps _ _ _ _ Hs) | exact IH].
Qed.
End Keeping.


(** ** Printing and warning *)

Lemma printed_app out1 out2 : printed (out1 ++ out2) = printed out1 ++ printed out2.
Proof. apply omap_app. Qed.

Lemma warnings_app out1 out2 : warnings (out1 ++ out2) = warnings out1 ++ warnings out2.
Proof. apply omap_app. Qed.

Lemma bindIn_output handle operations handler w :
  output (worldOf (bindIn handle operations handler w)) = output w.
Proof. reflexivity. Qed.

Lemma bindIn_verbose handle operations handler w :
  verbose (this (worldOf (bindIn handle operations handler w))) = verbose (this w).
Proof. rewrite bindIn_spec. cbn [worldOf this]. apply bindListen_verbose. Qed.

Lemma unbind_verbose i w : verbose (this (worldOf (unbind i w))) = verbose (this w).
Proof.
  rewrite unbind_this. destruct (table _ _ !! _); [|done]. apply verbose_setTable.
Qed.

Global Instance staysSilent_preorder : PreOrder staysSilent.
Proof.
  split.
  - intros w. by split.
  - intros w1 w2 w3 [Hv12 Hp12] [Hv23 Hp23]. split; [congruence|].
    intros Hv. rewrite Hp23, Hp12 by congruence. done.
Qed.

Lemma verbosePrint_silent message w : staysSilent w (verbosePrint message w).
Proof.
  split; [by rewrite verbosePrint_this|]. intros Hv. unfold verbosePrint. by rewrite Hv.
Qed.

Lemma emitOutput_silent o w :
  (forall message, o <> Printed message) -> staysSilent w (emitOutput o w).
Proof.
  intros Ho. split; [done|]. intros _. simpl. rewrite printed_app.
  destruct o; simpl; try by rewrite app_nil_r. by destruct (Ho message).
Qed.

Lemma call_silent c w r :
  isDispatch c = false -> exec 1 c w = Some r -> staysSilent w (worldOf r).
Proof.
  destruct c; try done; intros _ [= <-].
  - unfold listen. etrans; [apply verbosePrint_silent|].
    split; [apply bindIn_verbose | by rewrite bindIn_output].
  - unfold listenPost. etrans; [apply verbosePrint_silent|].
    split; [apply bindIn_verbose | by rewrite bindIn_output].
  - split; [apply unbind_verbose | by rewrite unbind_output].
  - unfold on. etrans; [apply verbosePrint_silent|].
    split; [apply bindIn_verbose | by rewrite bindIn_output].
  - unfold handle_. cbn [worldOf]. etrans; [apply verbosePrint_silent|]. by split.
  - by apply emitOutput_silent.
  - by apply emitOutput_silent.
  - by apply emitOutput_silent.
  - reflexivity.
Qed.

(** X1. An instance that is not verbose stays so and prints nothing,
    whatever it is asked to do and whatever its handlers do. *)
Theorem not_verbose_prints_nothing w w' :
  verbose (this w) = false -> steps w w' ->
  verbose (this w') = false /\ printed (output w') = printed (output w).
Proof.
  intros Hv Hsteps.
  destruct (steps_keeps staysSilent
              (fun f args w => emitOutput_silent (Invoked f args) w ltac:(done))
              verbosePrint_silent call_silent
              (fun m w => emitOutput_silent (Warned m) w ltac:(done))
              w w' Hsteps) as [Hv' Hp].
  split; [congruence | auto].
Qed.


Global Instance warnsNothing_preorder : PreOrder warnsNothing.
Proof.
  split; unfold warnsNothing; [done | intros w1 w2 w3 H1 H2; congruence].
Qed.

Lemma emitOutput_warnsNothing o w :
  (forall message, o <> Warned message) -> warnsNothing w (emitOutput o w).
Proof.
  intros Ho. unfold warnsNothing. simpl. rewrite warnings_app.
  destruct o; simpl; try by rewrite app_nil_r. by destruct (Ho message).
Qed.

Lemma call_warnsNothing c w r :
  isDispatch c = false -> exec 1 c w = Some r -> warnsNothing w (worldOf r).
Proof.
  unfold warnsNothing.
  destruct c; try done; intros _ [= <-];
    unfold listen, listenPost, on, handle_; cbn [worldOf];
    rewrite ?bindIn_output, ?unbind_output; cbn [output];
    rewrite ?warnings_verbosePrint; try done.
  - by apply emitOutput_warnsNothing.
  - by apply emitOutput_warnsNothing.
  - by apply emitOutput_warnsNothing.
Qed.

(** X2. The only warnings are those for messages with a handle the server
    does not know: a call of a script, a message to the client, and a message
    to the server whose handle passes the check add no warning, whatever the
    handlers do. *)
Theorem warns_only_for_unknown_handles fuel i w r :
  knownHandle i w -> step fuel i w = Some r ->
  warnings (output (worldOf r)) = warnings (output w).
Proof.
  assert (forall c, Keeps warnsNothing (exec fuel c)) as Hexec.
  { intros c. apply (exec_keeps warnsNothing).
    - intros f args w0. by apply emitOutput_warnsNothing.
    - intros m w0. apply warnings_verbosePrint.
    - apply call_warnsNothing. }
  assert (forall f args w0, warnsNothing w0 (emitOutput (Invoked f args) w0)) as Hinv
    by (intros; by apply emitOutput_warnsNothing).
  destruct i as [c|player boundEvent args|player boundEvent args|boundEvent args];
    cbn [step knownHandle]; intros Hknown H.
  - exact (Hexec _ _ _ H).
  - unfold onEvent in H. destruct Hknown as [h Hh]. rewrite Hh in H.
    revert H. unfold handleEvent.
    apply (bind_keeps warnsNothing); [|intros _; apply (ret_keeps warnsNothing)].
    by apply (forQueue_keeps warnsNothing).
  - unfold onFunction in H. destruct Hknown as [h Hh]. rewrite Hh in H.
    unfold handleFunction in H. destruct (incomingFunctions (this w) !! h); [|by inversion H].
    revert H. by apply (callHandler_keeps warnsNothing).
  - revert H. apply (dispatch_keeps warnsNothing); [done | | done].
    intros m w0. apply warnings_verbosePrint.
Qed.


(** ** Requests and messages at the edge of the check *)

(** X3. A request whose handle is not a string, or is a string that names no
    responder, is answered with [undefined]: one warning that names the
    sender, no handler called, the instance as it was. *)
Theorem unknown_function_is_refused fuel player boundHandle args w :
  (forall s, boundHandle = VString s -> incomingFunctions (this w) !! s = None) ->
  step fuel (OnServerInvoke player boundHandle args) w =
    Some (Returned VUndefined
            (emitOutput (Warned (Name player +:+ " tried to fire a non-existant function!"))
               w)).
Proof.
  intros H. cbn [step]. unfold onFunction. by rewrite verifyRemoteExistance_None.
Qed.


(** X4. A handle stays a key of [incomingEvents] when all its handlers are
    unbound: a message for it passes the check, so nothing is warned, and it
    calls nothing and changes nothing. *)
Theorem emptied_handle_passes_check fuel player handle args w (q : OperationIdArray) :
  incomingEvents (this w) !! handle = Some q ->
  Map.entries q = [] ->
  length q < fuel ->
  step fuel (OnServerEvent player (VString handle) args) w = Some (Returned VUndefined w).
Proof.
  intros Hq Hempty Hfuel. cbn [step]. rewrite onEvent_registered by eauto.
  assert (queueOf incomingEventsRef handle (this w) = q) as Hqueue
    by (by apply queueOf_lookup).
  assert (Map.values q = []) as Hvalues by (unfold Map.values; by rewrite Hempty).
  rewrite handleEvent_quiet; rewrite Hqueue, ?Hvalues; [|constructor|done].
  by rewrite invokeAll_nil.
Qed.




(** ** What a subscription does to the registry *)

Section MapGet.
Context {V : Type}.
Implicit Types (m : Map.t V) (k : nat) (v : V).

Lemma get_entries m k v : Map.get k m = Some v -> (k, v) ∈ Map.entries m.
Proof.
  induction m as [|[k' [v'|]] m IH]; cbn [Map.get]; [done|..].
  - rewrite entries_cons_Some. case_decide as Hk.
    + intros [= ->]. subst k'. left.
    + intros Hget. right. auto.
  - by rewrite entries_cons_None.
Qed.

(** With keys that differ, [get] gives the value of the entry of the key. *)
Lemma entries_get m k v : NoDup (Map.keys m) -> (k, v) ∈ Map.entries m -> Map.get k m = Some v.
Proof.
  induction m as [|[k' [v'|]] m IH]; cbn [Map.get].
  - intros _ Hin. by apply elem_of_nil in Hin.
  - rewrite keys_cons_Some, entries_cons_Some. intros Hnd Hin.
    apply NoDup_cons in Hnd as [Hk' Hnd]. apply elem_of_cons in Hin as [[= -> ->]|Hin].
    + by rewrite decide_True.
    + rewrite decide_False; [auto|]. intros ->. apply Hk'.
      unfold Map.keys. apply list_elem_of_fmap. by exists (k, v).
  - rewrite keys_cons_None, entries_cons_None. auto.
Qed.

Lemma get_absent m k : k ∉ Map.keys m -> Map.get k m = None.
Proof.
  intros Hk. destruct (Map.get k m) as [v|] eqn:Hget; [|done].
  destruct Hk. apply get_entries in Hget. unfold Map.keys.
  apply list_elem_of_fmap. by exists (k, v).
Qed.

(** [get] after [set] with a key that was not there. *)
Lemma get_set_fresh m k v k' :
  NoDup (Map.keys m) -> k ∉ Map.keys m ->
  Map.get k' (Map.set k v m) = if decide (k' = k) then Some v else Map.get k' m.
Proof.
  intros Hnd Hk. pose proof (entries_set_fresh k v m Hk) as Hperm.
  assert (NoDup (Map.keys (Map.set k v m))) as Hnd'.
  { unfold Map.keys. rewrite Hperm. rewrite fmap_cons. by apply NoDup_cons. }
  case_decide as Hk'.
  - subst k'. apply entries_get; [done|]. rewrite Hperm. left.
  - destruct (Map.get k' m) as [v'|] eqn:Hget.
    + apply entries_get; [done|]. rewrite Hperm. right. by apply get_entries.
    + apply get_absent. unfold Map.keys. rewrite Hperm, fmap_cons.
      apply not_elem_of_cons. split; [done|]. intros Hin.
      apply list_elem_of_fmap in Hin as ([k0 v0] & -> & Hin).
      apply (entries_get m k0 v0 Hnd) in Hin. simpl in Hget. congruence.
Qed.
End MapGet.

Lemma subscribe_returns r w :
  exists w',
    subscribe r w =
      Returned (VIdentifier (mkIdentifier (regTable r) (regHandle r) (caseNumber (this w))))
        w'.
Proof.
  unfold subscribe. destruct (regTable r); unfold listen, listenPost, on;
    rewrite bindIn_spec, verbosePrint_this; eauto.
Qed.

(** X5. On a new instance the subscriptions are numbered from 0 in the order
    they are made, whatever their tables and handles: after the registrations
    the counter is their number, and the queue of a handle holds the handlers
    registered under it, each once and under the position of its
    registration in the sequence, where [get] finds it. Nothing is said of
    the order in which the queue holds them. *)
Theorem registrations_are_numbered studio regs g h :
  let w := subscribeAll regs (construct studio) in
  caseNumber (this w) = length regs /\
  Map.entries (queueOf g h (this w)) ≡ₚ entriesOf g h 0 regs /\
  NoDup (Map.keys (queueOf g h (this w))) /\
  forall k f, Map.get k (queueOf g h (this w)) = Some f <-> (k, f) ∈ entriesOf g h 0 regs.
Proof.
  intros w.
  destruct (subscribeAll_entries regs (construct studio) g h (wf_construct studio))
    as (Hc & He & _).
  rewrite queueOf_construct, caseNumber_construct in He.
  rewrite caseNumber_construct in Hc. fold w in Hc, He. simpl in He.
  assert (NoDup (Map.keys (queueOf g h (this w)))) as Hnd.
  { eapply keysBelow_NoDup, wf_queueOf, subscribeAll_wf, wf_construct. }
  split; [exact Hc|]. split; [exact He|]. split; [exact Hnd|].
  intros k f. rewrite <- He. split; [apply get_entries | by apply entries_get].
Qed.

(** X6. In the life of an instance, a subscription returns the identifier made
    of its table, its handle and the value of the counter; it adds its handler
    to the queue of that handle in that table, under that id, where [get]
    finds it, and leaves the other entries of that queue as they were; it adds
    one to the counter; and it leaves every other queue and the responders as
    they were. Nothing is said of where in the queue the new entry lies. *)
Theorem subscription_adds r w :
  reachable w ->
  let g := regTable r in
  let h := regHandle r in
  let n := caseNumber (this w) in
  exists w',
    subscribe r w = Returned (VIdentifier (mkIdentifier g h n)) w' /\
    Map.entries (queueOf g h (this w')) ≡ₚ
      (n, regHandler r) :: Map.entries (queueOf g h (this w)) /\
    (forall k,
       Map.get k (queueOf g h (this w')) =
         if decide (k = n) then Some (regHandler r) else Map.get k (queueOf g h (this w))) /\
    (forall g' h', ~ (g' = g /\ h' = h) -> table g' (this w') !! h' = table g' (this w) !! h') /\
    incomingFunctions (this w') = incomingFunctions (this w) /\
    caseNumber (this w') = S n.
Proof.
  intros Hreach g h n. apply reachable_wf in Hreach.
  destruct (subscribe_returns r w) as [w' Hw']. exists w'. split; [exact Hw'|].
  assert (w' = worldOf (subscribe r w)) as -> by (by rewrite Hw').
  pose proof (wf_queueOf w g h Hreach) as Hq.
  assert (n ∉ Map.keys (queueOf g h (this w))) as Hn
    by (eapply keysBelow_absent; [exact Hq | done]).
  split; [|split; [|split; [|split]]].
  - rewrite subscribe_entries by done. by rewrite decide_True.
  - intros k. rewrite subscribe_queue, decide_True by done.
    apply get_set_fresh; [by eapply keysBelow_NoDup | done].
  - intros g' h' Hne. rewrite subscribe_this, bindListen_table. by rewrite decide_False.
  - rewrite subscribe_this. apply bindListen_incomingFunctions.
  - apply subscribe_caseNumber.
Qed.


(** ** Unbinding, then dispatching *)

Lemma unbind_queue_length i w g h :
  length (queueOf g h (this (worldOf (unbind i w)))) = length (queueOf g h (this w)).
Proof.
  unfold queueOf. rewrite unbind_table. case_decide; [|done].
  destruct (table g (this w) !! h) as [q|]; [|done]. simpl.
  symmetry. exact (Forall2_length _ _ _ (delete_cleared (id i) q)).
Qed.

(** X7. Unbinding a registration and then dispatching its handle calls the
    handlers that are left: the primary handlers, then the post handlers, the
    unbound one not among them. The handlers that are left are called in the
    order in which [pairs] walked them before the unbinding: clearing an entry
    does not move the others. The handlers that are left are taken not to
    call the dispatcher themselves. *)
Theorem dispatch_after_unbind fuel i args w :
  wf w ->
  Map.has (id i) (queueOf (group i) (handle i) (this w)) = true ->
  Forall (quietOn args)
    (handlersWithout i boundOperationsRef w ++ handlersWithout i boundPostOperationsRef w) ->
  length (queueOf boundOperationsRef (handle i) (this w)) < fuel ->
  length (queueOf boundPostOperationsRef (handle i) (this w)) < fuel ->
  exists w1 w',
    unbind i w = Returned (VBoolean true) w1 /\
    exec (S fuel) (Dispatch (handle i) args) w1 = Some (Returned VUndefined w') /\
    this w' = this w1 /\
    invocations (output w') =
      invocations (output w) ++
        ((fun f => (f, args)) <$> handlersWithout i boundOperationsRef w) ++
        ((fun f => (f, args)) <$> handlersWithout i boundPostOperationsRef w).
Proof.
  intros Hw Hhas Hquiet Hn1 Hn2.
  destruct (unbind_registered i w Hw Hhas) as (w1 & Hu & Hentries & _ & _ & _ & Hout & _).
  assert (w1 = worldOf (unbind i w)) as Hw1 by (by rewrite Hu).
  assert (forall g, Map.values (queueOf g (handle i) (this w1)) = handlersWithout i g w)
    as Hvalues.
  { intros g. unfold Map.values, handlersWithout. rewrite Hentries. f_equal.
    apply list_filter_iff. intros e. tauto. }
  destruct (dispatch_registered fuel (handle i) args w1) as (w' & Hexec & Hthis & Hinv & _).
  - by rewrite !Hvalues.
  - by rewrite Hw1, unbind_queue_length.
  - by rewrite Hw1, unbind_queue_length.
  - exists w1, w'. rewrite !Hvalues, Hout in Hinv. by repeat split.
Qed.


(** ** A handler that throws *)

Lemma invocations_invoked f args w :
  invocations (output (emitOutput (Invoked f args) w)) =
    invocations (output w) ++ [(f, args)].
Proof. unfold invocations. simpl. by rewrite omap_app. Qed.

Lemma runBody_throws handle fuel pre message rest w :
  Forall (fun c => plain handle c = true) pre ->
  runBody (exec (S fuel)) (pre ++ Raise message :: rest) w =
    Some (Threw message (foldl (fun w c => perform c w) w pre)).
Proof.
  intros Hpre. revert w. induction Hpre as [|c pre Hc _ IH]; intros w; [done|].
  cbn [app runBody foldl]. unfold bind.
  destruct (perform_exec handle fuel c w Hc) as [v ->]. apply IH.
Qed.

Lemma callHandler_throws handle fuel args f pre message rest w :
  body f args = pre ++ Raise message :: rest ->
  Forall (fun c => plain handle c = true) pre ->
  callHandler (exec (S fuel)) args f w =
    Some (Threw message
            (foldl (fun w c => perform c w) (emitOutput (Invoked f args) w) pre)).
Proof.
  intros Hf Hpre. unfold callHandler, bind.
  by rewrite Hf, (runBody_throws handle).
Qed.

Lemma forOf_throws fuel n g h args i w (q1 q2 : OperationIdArray) k f pre message rest :
  table g (this w) !! h = Some (q1 ++ (k, Some f) :: q2 : OperationIdArray) ->
  Forall (plainOn h args) (Map.values (drop i q1)) ->
  body f args = pre ++ Raise message :: rest ->
  Forall (fun c => plain h c = true) pre ->
  i <= length q1 -> length q1 - i < n ->
  forOf (exec (S fuel)) n g h args i w =
    Some (Threw message
            (foldl (fun w c => perform c w)
               (emitOutput (Invoked f args) (calledAll args (Map.values (drop i q1)) w))
               pre)).
Proof.
  revert i w.
  induction n as [|n IH]; intros i w Hq Hplain Hf Hpre Hi Hn; [lia|].
  cbn [forOf]. rewrite Hq. unfold Map.t.
  destruct (decide (i = length q1)) as [->|Hne].
  - rewrite list_lookup_middle by done. rewrite drop_ge by done. unfold bind.
    by rewrite (callHandler_throws h fuel args f pre message rest).
  - assert (i < length q1) as Hlt by lia.
    destruct (lookup_lt_is_Some_2 q1 i Hlt) as [e Hei].
    rewrite lookup_app_l, Hei by done.
    rewrite (drop_S _ _ _ Hei) in *. destruct e as [k' [f'|]].
    + rewrite values_cons_Some in *. inversion Hplain as [|? ? Hf' Hrest]; subst.
      unfold bind. rewrite (callHandler_plain h) by exact Hf'.
      assert (table g (this (called args f' w)) !! h =
                Some (q1 ++ (k, Some f) :: q2 : OperationIdArray)) as Hq'
        by (by rewrite called_table).
      rewrite decide_True by (by rewrite (queueOf_lookup _ _ _ _ Hq')).
      rewrite calledAll_cons. apply IH; [done | done | done | done | lia | lia].
    + rewrite values_cons_None in *. apply IH; [done | done | done | done | lia | lia].
Qed.

(** X8. When a primary handler throws, [dispatch] throws what it threw: the
    handlers that the walk met before it were called, it was called and did
    what it does before it throws, and neither the primary handlers after it
    nor any post handler is called. The calls of the handlers before it, and
    its own calls before it throws, are taken to be plain: they send
    messages, set responders or subscribe under other handles, and do not
    themselves throw, unbind, dispatch, or subscribe under the handle. *)
Theorem throwing_handler_aborts_dispatch fuel handle args w
    (q1 q2 : OperationIdArray) k f pre message rest :
  boundOperations (this w) !! handle = Some (q1 ++ (k, Some f) :: q2 : OperationIdArray) ->
  Forall (plainOn handle args) (Map.values q1) ->
  body f args = pre ++ Raise message :: rest ->
  Forall (fun c => plain handle c = true) pre ->
  length q1 <= fuel ->
  exists w',
    exec (S (S fuel)) (Dispatch handle args) w = Some (Threw message w') /\
    w' = foldl (fun w c => perform c w)
           (emitOutput (Invoked f args)
              (calledAll args (Map.values q1)
                 (verbosePrint
                    [queuedMessage handle (boundOperations (this w) !! handle)
                       (boundPostOperations (this w) !! handle)] w)))
           pre /\
    invocations (output w') =
      invocations (output w) ++ ((fun f => (f, args)) <$> Map.values q1 ++ [f]).
Proof.
  intros Hq Hplain Hf Hpre Hn. eexists. split; [|split; [reflexivity|]].
  - change (exec (S (S fuel)) (Dispatch handle args) w)
      with (dispatch (exec (S fuel)) (S fuel) handle args w).
    unfold dispatch, bind. rewrite Hq at 1. cbn [forQueue].
    rewrite (forOf_throws _ _ _ _ _ 0 _ q1 q2 k f pre message rest);
      [by rewrite drop_0 | rewrite verbosePrint_this; exact Hq | by rewrite drop_0
      | done | done | lia | lia].
  - rewrite (performAll_invocations handle) by done.
    rewrite invocations_invoked, (calledAll_invocations handle) by done.
    by rewrite invocations_verbosePrint, fmap_app, !app_assoc.
Qed.


(** ** Unbinding under a handle that was never bound *)

Lemma subscribeAll_other regs w g h :
  handlersOf g h regs = [] ->
  table g (this (subscribeAll regs w)) !! h = table g (this w) !! h.
Proof.
  revert w. induction regs as [|r regs IH]; intros w H; simpl; [done|].
  rewrite handlersOf_cons in H. case_decide as Hgh; [done|].
  rewrite (IH _ H), subscribe_this, bindListen_table. by rewrite decide_False.
Qed.

(** X10. After a sequence of registrations on a new instance, [unbind] with
    an identifier throws when no registration was made under the identifier's
    handle in the identifier's table, and leaves the instance as it was; when
    one was made, it returns a boolean. *)
Theorem unbind_throws_for_unbound_handle studio regs i :
  let w := subscribeAll regs (construct studio) in
  (handlersOf (group i) (handle i) regs = [] ->
     exists message, unbind i w = Threw message w) /\
  (handlersOf (group i) (handle i) regs <> [] ->
     exists existed w', unbind i w = Returned (VBoolean existed) w').
Proof.
  intros w. split.
  - intros H. unfold unbind. subst w. rewrite (subscribeAll_other _ _ _ _ H).
    unfold construct. rewrite verbosePrint_this.
    destruct (group i); simpl; rewrite lookup_empty; eauto.
  - intros H.
    destruct (subscribeAll_handle regs (construct studio) (group i) (handle i)) as [q Hq];
      [by left|].
    fold w in Hq. pose proof (unbind_found i w q Hq) as Hu. eauto.
Qed.


(** ** An id names one registration *)

Lemma idsApart_this w w' : this w' = this w -> idsApart w -> idsApart w'.
Proof. intros H Hw. unfold idsApart. rewrite H. exact Hw. Qed.

Lemma bind_idsApart handle operations handler w :
  wf w -> idsApart w ->
  idsApart (mkWorld (bindListen handle operations handler (this w)).2 (output w)).
Proof.
  intros Hwf Hw g h g' h' q q' k. cbn [this]. rewrite !bindListen_table.
  assert (forall (q0 : OperationIdArray) g0 h0,
            table g0 (this w) !! h0 = Some q0 -> ~ (g0 = operations /\ h0 = handle) ->
            k ∈ Map.keys (Map.set (caseNumber (this w)) handler
                            (queueOf operations handle (this w))) ->
            k ∈ Map.keys q0 -> False) as Hnew.
  { intros q0 g0 h0 Hq0 Hne Hk Hk0.
    unfold Map.keys in Hk at 1.
    rewrite entries_set_fresh, fmap_cons in Hk
      by (eapply keysBelow_absent; [by apply wf_queueOf | done]).
    apply elem_of_cons in Hk as [Hk|Hk].
    - subst k. eapply keysBelow_absent; [by eapply Hwf | | exact Hk0]. done.
    - unfold queueOf in Hk.
      destruct (table operations (this w) !! handle) as [q1|] eqn:E; simpl in Hk.
      + destruct (Hw _ _ _ _ _ _ _ E Hq0 Hk Hk0) as [-> ->]. by apply Hne.
      + by apply elem_of_nil in Hk. }
  case_decide as H1; case_decide as H2.
  - destruct H1 as [-> ->], H2 as [-> ->]. done.
  - intros [= <-] Hq' Hk Hk'. destruct (Hnew _ _ _ Hq' H2 Hk Hk').
  - intros Hq [= <-] Hk Hk'. destruct (Hnew _ _ _ Hq H1 Hk' Hk).
  - apply Hw.
Qed.

Lemma unbind_idsApart i w : idsApart w -> idsApart (worldOf (unbind i w)).
Proof.
  intros Hw g h g' h' q q' k. rewrite !unbind_table.
  assert (forall g0 h0 (q0 : OperationIdArray),
            (if decide (g0 = group i /\ h0 = handle i)
             then (fun q => (Map.delete (id i) q).2) <$> table g0 (this w) !! h0
             else table g0 (this w) !! h0) = Some q0 ->
            k ∈ Map.keys q0 ->
            exists q1 : OperationIdArray,
              table g0 (this w) !! h0 = Some q1 /\ k ∈ Map.keys q1) as Hold.
  { intros g0 h0 q0 Hq0 Hk. case_decide; [|eauto].
    destruct (table g0 (this w) !! h0) as [q1|]; [|done]. injection Hq0 as <-.
    exists q1. split; [done|]. eapply cleared_keys; [apply delete_cleared | exact Hk]. }
  intros Hq Hq' Hk Hk'.
  destruct (Hold _ _ _ Hq Hk) as (q1 & Hq1 & Hk1).
  destruct (Hold _ _ _ Hq' Hk') as (q1' & Hq1' & Hk1').
  exact (Hw _ _ _ _ _ _ _ Hq1 Hq1' Hk1 Hk1').
Qed.

Global Instance tidy_stable : Stable anyCall tidy.
Proof.
  split.
  - split; [by intros w H | intros w1 w2 w3 H12 H23 H; auto].
  - intros c f _ _. apply okHandler_any.
  - intros o w [Hwf Hw]. split; [exact Hwf | exact Hw].
  - intros handle operations handler w [Hwf Hw]. split.
    + exact (proj1 (bind_orderly handle operations handler w Hwf)).
    + by apply bind_idsApart.
  - intros i w [Hwf Hw]. split.
    + exact (proj1 (unbind_orderly i w Hwf)).
    + by apply unbind_idsApart.
  - intros handle handler w _ [Hwf Hw]. split.
    + intros g h q. cbn [this]. rewrite table_setIncomingFunctions. apply Hwf.
    + unfold idsApart. cbn [this]. intros g h g' h' q q' k.
      rewrite !table_setIncomingFunctions. apply Hw.
Qed.

(** X11. In the life of an instance an id names one registration at most: the
    ids of a queue are below the counter and differ from each other, and an id
    found in two queues is found in the same queue twice, that is, the two
    are one. *)
Theorem ids_name_one_registration w g h (q : OperationIdArray) :
  reachable w ->
  table g (this w) !! h = Some q ->
  NoDup (Map.keys q) /\
  Forall (fun k => k < caseNumber (this w)) (Map.keys q) /\
  forall g' h' (q' : OperationIdArray) k,
    table g' (this w) !! h' = Some q' ->
    k ∈ Map.keys q -> k ∈ Map.keys q' -> g = g' /\ h = h'.
Proof.
  intros [studio Hsteps] Hq.
  assert (wf (construct studio) /\ idsApart (construct studio)) as Hinit.
  { split; [apply wf_construct|]. intros g0 h0 g' h' q0 q' k Hq0.
    unfold construct in Hq0. rewrite verbosePrint_this in Hq0.
    destruct g0; simpl in Hq0; by rewrite lookup_empty in Hq0. }
  destruct (steps_preserves tidy _ _ Hsteps Hinit) as [Hwf Hw].
  split; [by eapply keysBelow_NoDup, Hwf|]. split; [by eapply keysBelow_keys, Hwf|].
  intros g' h' q' k Hq'. by apply (Hw g h g' h' q q' k).
Qed.




(** ** Post handlers subscribed while the primary handlers run *)

Lemma bindListen_other_table handle operations handler d g :
  g <> operations -> table g (bindListen handle operations handler d).2 = table g d.
Proof.
  intros Hg. unfold bindListen. simpl.
  by rewrite table_setTable_ne, table_setCaseNumber.
Qed.

Lemma listenPost_effect handle handler w :
  exists i w1,
    listenPost handle handler w = Returned (VIdentifier i) w1 /\
    boundOperations (this w1) = boundOperations (this w) /\
    invocations (output w1) = invocations (output w).
Proof.
  unfold listenPost. rewrite bindIn_spec. eexists _, _. split; [reflexivity|].
  cbn [this output]. split.
  - rewrite verbosePrint_this.
    by apply (bindListen_other_table _ _ _ _ boundOperationsRef).
  - apply invocations_verbosePrint.
Qed.

Lemma runBody_listensPost fuel calls w :
  Forall (fun c => exists handle handler, c = ListenPost handle handler) calls ->
  exists w1,
    runBody (exec (S fuel)) calls w = Some (Returned tt w1) /\
    boundOperations (this w1) = boundOperations (this w) /\
    invocations (output w1) = invocations (output w).
Proof.
  intros Hcalls. revert w. induction Hcalls as [|c calls (h & f & ->) _ IH]; intros w.
  - by exists w.
  - destruct (listenPost_effect h f w) as (i & w1 & Hl & Ht1 & Ho1).
    destruct (IH w1) as (w2 & Hr & Ht2 & Ho2).
    exists w2. split; [|split; congruence].
    cbn [runBody]. unfold bind. cbn [exec]. unfold lift. by rewrite Hl.
Qed.

Lemma callHandler_listensPost fuel args f w :
  onlyListensPost args f ->
  exists w1,
    callHandler (exec (S fuel)) args f w = Some (Returned (result f args) w1) /\
    boundOperations (this w1) = boundOperations (this w) /\
    invocations (output w1) = invocations (output w) ++ [(f, args)].
Proof.
  intros Hf.
  destruct (runBody_listensPost fuel (body f args) (emitOutput (Invoked f args) w) Hf)
    as (w1 & Hr & Ht & Ho).
  exists w1. split; [|split].
  - unfold callHandler, bind. by rewrite Hr.
  - exact Ht.
  - by rewrite Ho, invocations_invoked.
Qed.

Lemma forOf_listensPost fuel n handle args i w (q : OperationIdArray) :
  boundOperations (this w) !! handle = Some q ->
  Forall (onlyListensPost args) (Map.values (drop i q)) ->
  length q - i < n ->
  exists w',
    forOf (exec (S fuel)) n boundOperationsRef handle args i w = Some (Returned tt w') /\
    boundOperations (this w') = boundOperations (this w) /\
    invocations (output w') =
      invocations (output w) ++ ((fun f => (f, args)) <$> Map.values (drop i q)).
Proof.
  revert i w. induction n as [|n IH]; intros i w Hq Hall Hn; [lia|].
  cbn [forOf table]. rewrite Hq. destruct (q !! i) as [[k [f|]]|] eqn:Ei.
  - rewrite (drop_S _ _ _ Ei), values_cons_Some in *.
    inversion Hall as [|? ? Hf Hrest]; subst.
    destruct (callHandler_listensPost fuel args f w Hf) as (w1 & Hc & Ht1 & Ho1).
    destruct (IH (S i) w1) as (w' & Hloop & Ht' & Ho').
    + by rewrite Ht1.
    + done.
    + apply lookup_lt_Some in Ei. lia.
    + exists w'. split; [|split].
      * unfold bind. rewrite Hc.
        rewrite decide_True; [done|]. unfold queueOf. cbn [table]. by rewrite Ht1, Hq.
      * congruence.
      * rewrite Ho', Ho1, fmap_cons, <- app_assoc. reflexivity.
  - rewrite (drop_S _ _ _ Ei), values_cons_None in *.
    apply IH; [done | done |]. apply lookup_lt_Some in Ei. lia.
  - apply lookup_ge_None in Ei. rewrite drop_ge by done.
    exists w. simpl. by rewrite app_nil_r.
Qed.

(** X12. [dispatch] looks for the post queue of the handle before it calls the
    primary handlers. When there is none at that time, the dispatch calls the
    primary handlers and nothing else, also when these subscribe post
    handlers, under the handle dispatched or another, while they run. *)
Theorem late_post_handlers_are_not_called fuel handle args w (q : OperationIdArray) :
  boundOperations (this w) !! handle = Some q ->
  boundPostOperations (this w) !! handle = None ->
  Forall (onlyListensPost args) (Map.values q) ->
  length q <= fuel ->
  exists w',
    exec (S (S fuel)) (Dispatch handle args) w = Some (Returned VUndefined w') /\
    invocations (output w') =
      invocations (output w) ++ ((fun f => (f, args)) <$> Map.values q).
Proof.
  intros Hq Hpost Hall Hn.
  destruct (forOf_listensPost fuel (S fuel) handle args 0
              (verbosePrint [queuedMessage handle (Some q) None] w) q)
    as (w' & Hloop & _ & Ho).
  - by rewrite verbosePrint_this.
  - by rewrite drop_0.
  - lia.
  - exists w'. split.
    + change (exec (S (S fuel)) (Dispatch handle args) w)
        with (dispatch (exec (S fuel)) (S fuel) handle args w).
      unfold dispatch, bind. rewrite Hq, Hpost. cbn [forQueue]. by rewrite Hloop.
    + by rewrite Ho, invocations_verbosePrint, drop_0.
Qed.




(** ** A handler that dispatches another handle *)

Lemma callHandler_nested fuel args args' f b w :
  let primary := queueOf boundOperationsRef b (this w) in
  let post := queueOf boundPostOperationsRef b (this w) in
  body f args = [Dispatch b args'] ->
  Forall (quietOn args') (Map.values primary ++ Map.values post) ->
  length primary < fuel -> length post < fuel ->
  exists w1,
    callHandler (exec (S fuel)) args f w = Some (Returned (result f args) w1) /\
    this w1 = this w /\
    invocations (output w1) =
      invocations (output w) ++
        (f, args) :: ((fun f => (f, args')) <$> Map.values primary ++ Map.values post).
Proof.
  intros primary post Hf Hquiet Hn1 Hn2.
  destruct (dispatch_registered fuel b args' (emitOutput (Invoked f args) w))
    as (w1 & Hexec & Hthis & Hinv & _); [done..|].
  exists w1. split; [|split].
  - unfold callHandler. rewrite Hf. cbn [runBody]. unfold bind. by rewrite Hexec.
  - exact Hthis.
  - rewrite Hinv, invocations_invoked, fmap_app, <- !app_assoc. reflexivity.
Qed.

Lemma forOf_nested fuel n g h args args' b i w (q1 q2 : OperationIdArray) k f :
  let primary := queueOf boundOperationsRef b (this w) in
  let post := queueOf boundPostOperationsRef b (this w) in
  table g (this w) !! h = Some (q1 ++ (k, Some f) :: q2 : OperationIdArray) ->
  Forall (quietOn args) (Map.values (drop i q1)) ->
  Forall (quietOn args) (Map.values q2) ->
  body f args = [Dispatch b args'] ->
  Forall (quietOn args') (Map.values primary ++ Map.values post) ->
  length primary < fuel -> length post < fuel ->
  i <= length q1 -> length q1 + S (length q2) - i < n ->
  exists w',
    forOf (exec (S fuel)) n g h args i w = Some (Returned tt w') /\
    this w' = this w /\
    invocations (output w') =
      invocations (output w) ++
        ((fun f => (f, args)) <$> Map.values (drop i q1)) ++
        (f, args) :: ((fun f => (f, args')) <$> Map.values primary ++ Map.values post) ++
        ((fun f => (f, args)) <$> Map.values q2).
Proof.
  intros primary post. revert i w primary post.
  induction n as [|n IH]; intros i w primary post Hq Hq1 Hq2 Hf Hb Hn1 Hn2 Hi Hn; [lia|].
  cbn [forOf]. rewrite Hq. unfold Map.t.
  destruct (decide (i = length q1)) as [->|Hne].
  - rewrite list_lookup_middle by done. rewrite drop_ge by done.
    assert (drop (S (length q1)) (q1 ++ (k, Some f) :: q2) = q2) as Hdrop.
    { rewrite drop_app_ge by lia. by replace (S (length q1) - length q1) with 1 by lia. }
    destruct (callHandler_nested fuel args args' f b w Hf Hb Hn1 Hn2)
      as (w1 & Hcall & Hthis & Hinv).
    unfold bind. rewrite Hcall.
    rewrite decide_True by (by rewrite Hthis, (queueOf_lookup _ _ _ _ Hq)).
    rewrite (forOf_quiet _ n g h args (S (length q1)) w1
               (q1 ++ (k, Some f) :: q2 : OperationIdArray)).
    + eexists. split; [reflexivity|]. split; [exact Hthis|].
      unfold Map.t. rewrite invocations_invokeAll, Hinv.
      rewrite Hdrop. simpl. by rewrite <- !app_assoc.
    + by rewrite Hthis.
    + unfold Map.t. by rewrite Hdrop.
    + unfold Map.t. rewrite length_app. simpl. lia.
  - assert (i < length q1) as Hlt by lia.
    destruct (lookup_lt_is_Some_2 q1 i Hlt) as [e Hei].
    rewrite lookup_app_l, Hei by done.
    rewrite (drop_S _ _ _ Hei) in *. destruct e as [k' [f'|]].
    + rewrite values_cons_Some in *. inversion Hq1 as [|? ? Hf' Hrest]; subst.
      unfold bind. rewrite callHandler_quiet by exact Hf'.
      rewrite decide_True by (cbn [emitOutput this]; by rewrite (queueOf_lookup _ _ _ _ Hq)).
      destruct (IH (S i) (emitOutput (Invoked f' args) w)) as (w' & Hloop & Hthis & Hinv);
        [done | done | done | done | done | done | done | lia | lia |].
      exists w'. split; [exact Hloop|]. split; [exact Hthis|].
      rewrite Hinv, invocations_invoked, fmap_cons, <- !app_assoc. reflexivity.
    + rewrite values_cons_None in *.
      apply IH; [done | done | done | done | done | done | done | lia | lia].
Qed.

(** X13. A dispatch made by a handler runs where it is made: when a primary
    handler of [a] dispatches [b], the handlers of [b], primary then post, are
    called after that handler and before the next handler of [a]; the pass
    over [a] then goes on, and its post handlers come last. The other handlers
    are taken not to call the dispatcher themselves. *)
Theorem nested_dispatch_runs_in_place fuel a b args args' w
    (q1 q2 : OperationIdArray) k f :
  let post := Map.values (queueOf boundPostOperationsRef a (this w)) in
  let nested :=
    Map.values (queueOf boundOperationsRef b (this w))
      ++ Map.values (queueOf boundPostOperationsRef b (this w)) in
  boundOperations (this w) !! a = Some (q1 ++ (k, Some f) :: q2 : OperationIdArray) ->
  body f args = [Dispatch b args'] ->
  Forall (quietOn args) (Map.values q1 ++ Map.values q2 ++ post) ->
  Forall (quietOn args') nested ->
  length q1 + S (length q2) <= fuel ->
  length (queueOf boundPostOperationsRef a (this w)) <= fuel ->
  length (queueOf boundOperationsRef b (this w)) < fuel ->
  length (queueOf boundPostOperationsRef b (this w)) < fuel ->
  exists w',
    exec (S (S fuel)) (Dispatch a args) w = Some (Returned VUndefined w') /\
    this w' = this w /\
    invocations (output w') =
      invocations (output w) ++
        ((fun f => (f, args)) <$> Map.values q1) ++
        (f, args) :: ((fun f => (f, args')) <$> nested) ++
        ((fun f => (f, args)) <$> Map.values q2 ++ post).
Proof.
  intros post nested Hq Hf Hquiet Hnested Hn Hnpost Hn1 Hn2.
  apply Forall_app in Hquiet as [Hq1 Hquiet]. apply Forall_app in Hquiet as [Hq2 Hpost].
  set (w0 := verbosePrint
               [queuedMessage a (boundOperations (this w) !! a)
                  (boundPostOperations (this w) !! a)] w).
  assert (this w0 = this w) as Hw0 by apply verbosePrint_this.
  destruct (forOf_nested fuel (S fuel) boundOperationsRef a args args' b 0 w0 q1 q2 k f)
    as (w1 & Hloop & Hthis1 & Hinv1);
    [by rewrite Hw0 | by rewrite drop_0 | done | done | by rewrite Hw0
    | by rewrite Hw0 | by rewrite Hw0 | lia | lia |].
  rewrite Hw0 in Hthis1, Hinv1. rewrite drop_0 in Hinv1.
  exists (invokeAll args post w1). split; [|split].
  - change (exec (S (S fuel)) (Dispatch a args) w)
      with (dispatch (exec (S fuel)) (S fuel) a args w).
    unfold dispatch, bind. fold w0. rewrite Hq at 1. cbn [forQueue]. rewrite Hloop.
    change (boundPostOperations (this w) !! a)
      with (table boundPostOperationsRef (this w) !! a).
    rewrite <- Hthis1. rewrite forQueue_quiet; rewrite Hthis1; [done | done | lia].
  - rewrite invokeAll_this. exact Hthis1.
  - rewrite invocations_invokeAll, Hinv1. subst w0. rewrite invocations_verbosePrint.
    subst nested. rewrite !fmap_app, <- !app_assoc. simpl. by rewrite <- !app_assoc.
Qed.




(** ** What a verbose instance prints *)

Lemma subscribe_verbose r w :
  verbose (this (worldOf (subscribe r w))) = verbose (this w).
Proof. rewrite subscribe_this. apply bindListen_verbose. Qed.

Lemma subscribe_printed r w :
  verbose (this w) = true ->
  printed (output (worldOf (subscribe r w))) = printed (output w) ++ [boundLine r].
Proof.
  intros Hv. unfold subscribe, boundLine.
  destruct (regTable r); unfold listen, listenPost, on;
    rewrite bindIn_output, verbosePrint_output, Hv, printed_app; reflexivity.
Qed.

Lemma subscribeAll_printed regs w :
  verbose (this w) = true ->
  verbose (this (subscribeAll regs w)) = true /\
  printed (output (subscribeAll regs w)) = printed (output w) ++ (boundLine <$> regs).
Proof.
  revert w. induction regs as [|r regs IH]; intros w Hv.
  - simpl. by rewrite app_nil_r.
  - change (subscribeAll (r :: regs) w) with (subscribeAll regs (worldOf (subscribe r w))).
    destruct (IH (worldOf (subscribe r w))) as [Hv' Hp]; [by rewrite subscribe_verbose|].
    split; [exact Hv'|].
    rewrite Hp, subscribe_printed by done. by rewrite fmap_cons, <- app_assoc.
Qed.

Lemma printed_invokeAll args fs w : printed (output (invokeAll args fs w)) = printed (output w).
Proof.
  unfold invokeAll. cbn [output]. rewrite printed_app.
  replace (printed ((fun f => Invoked f args) <$> fs)) with (@nil (list string));
    [by rewrite app_nil_r|].
  induction fs as [|f fs IH]; [done | exact IH].
Qed.

Lemma registered_size studio regs g h :
  let w := subscribeAll regs (construct studio) in
  match table g (this w) !! h with
  | Some q => Map.size q = length (handlersOf g h regs) /\ handlersOf g h regs <> []
  | None => handlersOf g h regs = []
  end.
Proof.
  intros w. destruct (registered_queue studio regs g h) as (Hv & _). fold w in Hv.
  destruct (table g (this w) !! h) as [q|] eqn:Eq.
  - rewrite (queueOf_lookup _ _ _ _ Eq) in Hv. split.
    + rewrite <- (Permutation_length Hv). unfold Map.size, Map.values.
      by rewrite length_fmap.
    + intros Hnil. subst w. rewrite (subscribeAll_other _ _ _ _ Hnil) in Eq.
      unfold construct in Eq. rewrite verbosePrint_this in Eq.
      destruct g; simpl in Eq; by rewrite lookup_empty in Eq.
  - symmetry. apply Permutation_nil_l. rewrite <- Hv. unfold queueOf. by rewrite Eq.
Qed.

(** X14. What an instance made in Studio prints: the line of the constructor,
    then one line for each registration, in the order of the registrations,
    that tells its kind and its handle; a dispatch then prints one line with
    the number of handlers registered with [listen] under the handle and,
    when there is one at least, the number of those registered with
    [listenPost]. The handlers are taken not to call the dispatcher. *)
Theorem verbose_log regs handle args fuel :
  let w := subscribeAll regs (construct true) in
  let primary := handlersOf boundOperationsRef handle regs in
  let post := handlersOf boundPostOperationsRef handle regs in
  Forall (quietOn args) (primary ++ post) ->
  length regs + 2 <= fuel ->
  printed (output w) = ["DISPATCHER:"; "Finished initialization"] :: (boundLine <$> regs) /\
  exists w',
    step fuel (Script (Dispatch handle args)) w = Some (Returned VUndefined w') /\
    printed (output w') =
      printed (output w) ++
        [["DISPATCHER:";
          "Queued " +:+ quoted handle +:+ " with " +:+ pretty (length primary)
            +:+ match post with
                | [] => ""
                | _ :: _ => " (+" +:+ pretty (length post) +:+ ")"
                end
            +:+ " bound."]].
Proof.
  intros w primary post Hquiet Hfuel.
  destruct (subscribeAll_printed regs (construct true) eq_refl) as [Hv Hp]. fold w in Hv, Hp.
  split; [exact Hp|].
  destruct (registered_queue true regs boundOperationsRef handle) as (Hv1 & Hl1).
  destruct (registered_queue true regs boundPostOperationsRef handle) as (Hv2 & Hl2).
  fold w in Hv1, Hl1, Hv2, Hl2. fold primary in Hv1. fold post in Hv2.
  destruct fuel as [|n]; [lia|]. eexists. split.
  - cbn [step exec]. apply dispatch_quiet; [by rewrite Hv1, Hv2 | lia | lia].
  - rewrite !printed_invokeAll, verbosePrint_output, Hv, printed_app. f_equal.
    cbn [printed omap]. do 2 f_equal. unfold queuedMessage.
    pose proof (registered_size true regs boundOperationsRef handle) as H1.
    pose proof (registered_size true regs boundPostOperationsRef handle) as H2.
    fold w primary in H1. fold w post in H2. cbn [table] in H1, H2.
    destruct (boundOperations (this w) !! handle) as [q1|];
      destruct (boundPostOperations (this w) !! handle) as [q2|].
    + destruct H1 as [-> _], H2 as [-> Hne]. by destruct post.
    + destruct H1 as [-> _]. by rewrite H2.
    + destruct H2 as [-> Hne]. rewrite H1. by destruct post.
    + by rewrite H1, H2.
Qed.


End WithPairs.

(** * Examples *)

(** The examples take the order of Luau for the walk of a table. *)
#[global] Existing Instance luau.

Lemma identifiers_strictly_increase_witness :
  id (mkIdentifier boundOperationsRef "a" 0) < id (mkIdentifier incomingEventsRef "b" 1).
Proof.
  eapply (identifiers_strictly_increase (construct false) 1 (Listen "a" (quiet 1)) _ _ _
            1 (On "b" (quiet 2)) _ _).
  - exact I.
  - reflexivity.
  - apply (after_steps 1 [Script (Unbind (mkIdentifier boundOperationsRef "a" 0))]).
    reflexivity.
  - exact I.
  - reflexivity.
Defined.

Lemma unbind_never_raises_witness :
  let i := mkIdentifier boundOperationsRef "a" 0 in
  let w2 := worldOf (unbind i (worldOf (listen "a" (quiet 1) (construct false)))) in
  is_Some (table (group i) (this w2) !! handle i) /\
  exists existed w3,
    forall fuel', exec (S fuel') (Unbind i) w2 = Some (Returned (VBoolean existed) w3).
Proof.
  intros i w2.
  apply (unbind_never_raises (construct false) 1 (Listen "a" (quiet 1)) i
           (worldOf (listen "a" (quiet 1) (construct false))) w2).
  - exact I.
  - reflexivity.
  - apply (after_steps 1 [Script (Unbind i)]). reflexivity.
Defined.

Lemma dispatch_unbound_is_noop_witness :
  exists w',
    exec 1 (Dispatch "a" [VNumber 1]) (construct true) = Some (Returned VUndefined w') /\
    this w' = this (construct true) /\
    output w' =
      [Printed ["DISPATCHER:"; "Finished initialization"];
       Printed ["DISPATCHER:"; "Queued " +:+ quoted "a" +:+ " with 0 bound."]].
Proof.
  apply (dispatch_unbound_is_noop 0 "a" [VNumber 1] (construct true)); reflexivity.
Defined.

Lemma unknown_handle_on_each_side_witness :
  step 0 (OnServerEvent (mkPlayer "eve") (VString "foo") [VNumber 41]) (construct false) =
    Some (Returned VUndefined
            (emitOutput (Warned "eve tried to fire a non-existant event!") (construct false))) /\
  exists client',
    step 0 (OnClientEvent "foo" [VNumber 41]) (construct false) =
      Some (Returned VUndefined client') /\
    this client' = this (construct false) /\
    warnings (output client') = warnings (output (construct false)) /\
    invocations (output client') = invocations (output (construct false)).
Proof.
  apply (unknown_handle_on_each_side 0 (mkPlayer "eve") (VString "foo") [VNumber 41]
           (construct false) "foo" (construct false)).
  - intros s _. reflexivity.
  - reflexivity.
  - reflexivity.
Defined.

(** C3 as the claim has it fails on the client: a message with a handle that
    nothing is registered for gives no warning there, not one. *)
Lemma client_unknown_handle_gives_no_warning :
  exists client',
    step 1 (OnClientEvent "foo" [VNumber 41]) (construct false) =
      Some (Returned VUndefined client') /\
    boundOperations (this (construct false)) !! "foo" = None /\
    boundPostOperations (this (construct false)) !! "foo" = None /\
    warnings (output client') = [] /\
    length (warnings (output client')) <> 1.
Proof.
  eexists. split; [reflexivity|]. repeat split; try reflexivity. simpl. lia.
Qed.

Lemma handle_replaces_witness :
  let w2 := worldOf (handle_ "bar" (answer 2 20)
                       (worldOf (handle_ "bar" (answer 1 10) (construct false)))) in
  step 0 (OnServerInvoke (mkPlayer "bob") (VString "bar") [VNumber 5]) w2 =
    Some (Returned (VNumber 20)
            (emitOutput (Invoked (answer 2 20) [VPlayer (mkPlayer "bob"); VNumber 5]) w2)).
Proof.
  intros w2.
  apply (handle_replaces 0 "bar" (answer 1 10) (answer 2 20) (mkPlayer "bob") [VNumber 5]
           (construct false)).
  reflexivity.
Defined.

Lemma unbind_twice_witness :
  let w := worldOf (listen "a" (quiet 1) (construct false)) in
  let i := mkIdentifier boundOperationsRef "a" 1 in
  let w1 := worldOf (listen "a" (quiet 2) w) in
  exists w3,
    unbind i w1 = Returned (VBoolean true) w3 /\
    (forall g h,
       Map.entries (queueOf g h (this w3)) =
         filter (fun e => ~ (g = group i /\ h = handle i /\ e.1 = id i))
           (Map.entries (queueOf g h (this w1)))) /\
    S (Map.size (queueOf (group i) (handle i) (this w3))) =
      Map.size (queueOf (group i) (handle i) (this w1)) /\
    incomingFunctions (this w3) = incomingFunctions (this w1) /\
    caseNumber (this w3) = caseNumber (this w1) /\
    output w3 = output w1 /\
    unbind i w3 = Returned (VBoolean false) w3.
Proof.
  intros w i w1.
  apply (proj2 (unbind_twice w 1 (Listen "a" (quiet 2)) i w1
                  (ex_intro _ false
                     (after_steps 1 [Script (Listen "a" (quiet 1))] (construct false) w
                        eq_refl))
                  I eq_refl) w1).
  - constructor.
  - reflexivity.
Defined.

Lemma responder_stays_witness :
  let w := worldOf (handle_ "bar" (answer 1 10) (construct false)) in
  let i := mkIdentifier boundOperationsRef "a" 0 in
  let inputs :=
    [Script (Listen "a" (unbinder 2 i));
     Script (Dispatch "a" [VNumber 7]);
     Script (Handle "baz" (answer 3 30));
     OnServerInvoke (mkPlayer "bob") (VString "bar") [VNumber 5];
     Script (Unbind i)] in
  exists w',
    after 5 inputs w = Some w' /\
    incomingFunctions (this w') !! "bar" = incomingFunctions (this w) !! "bar".
Proof.
  intros w i inputs. eexists. split; [reflexivity|].
  apply (proj2 (proj2 (responder_stays "bar")) w).
  - split.
    + intros g h q. destruct g; simpl; by rewrite lookup_empty.
    + intros h f Hf. simpl in Hf. apply lookup_insert_Some in Hf as [[_ <-]|[_ Hf]].
      * intros args. constructor.
      * by rewrite lookup_empty in Hf.
  - apply (after_stepsOf _ 5 inputs); [|reflexivity].
    repeat constructor; simpl; try done.
Defined.

Lemma not_verbose_prints_nothing_witness :
  let inputs :=
    [Script (Listen "a" (listener 1 "b" (quiet 2)));
     Script (Dispatch "a" [VNumber 7]);
     OnServerEvent (mkPlayer "eve") (VString "foo") [];
     Script (Handle "bar" (answer 3 30))] in
  exists w',
    after 5 inputs (construct false) = Some w' /\
    verbose (this w') = false /\
    printed (output w') = printed (output (construct false)).
Proof.
  intros inputs. eexists. split; [reflexivity|].
  apply not_verbose_prints_nothing; [reflexivity|].
  apply (after_steps 5 inputs). reflexivity.
Defined.

Lemma warns_only_for_unknown_handles_witness :
  let w := worldOf (on "foo" (listener 1 "foo" (quiet 2)) (construct true)) in
  let r := Returned VUndefined
             (worldOf (listen "foo" (quiet 2)
                         (emitOutput
                            (Invoked (listener 1 "foo" (quiet 2))
                               [VPlayer (mkPlayer "bob"); VNumber 41]) w))) in
  warnings (output (worldOf r)) = warnings (output w).
Proof.
  intros w r.
  apply (warns_only_for_unknown_handles 3
           (OnServerEvent (mkPlayer "bob") (VString "foo") [VNumber 41]) w r).
  - simpl. eauto.
  - reflexivity.
Defined.

Lemma unknown_function_is_refused_witness :
  let w := worldOf (handle_ "bar" (answer 1 10) (construct false)) in
  step 0 (OnServerInvoke (mkPlayer "eve") (VNumber 3) [VNumber 5]) w =
    Some (Returned VUndefined
            (emitOutput (Warned "eve tried to fire a non-existant function!") w)).
Proof.
  intros w.
  apply (unknown_function_is_refused 0 (mkPlayer "eve") (VNumber 3) [VNumber 5] w).
  intros s Hs. discriminate Hs.
Defined.

Lemma emptied_handle_passes_check_witness :
  let w := worldOf (unbind (mkIdentifier incomingEventsRef "foo" 0)
                      (worldOf (on "foo" (quiet 1) (construct false)))) in
  step 2 (OnServerEvent (mkPlayer "bob") (VString "foo") [VNumber 41]) w =
    Some (Returned VUndefined w).
Proof.
  intros w.
  apply (emptied_handle_passes_check 2 (mkPlayer "bob") "foo" [VNumber 41] w [(0, None)]).
  - reflexivity.
  - reflexivity.
  - simpl. lia.
Defined.






(** What the handlers of the example above have done: the one that replies
    has sent its message to the sender. *)
Lemma inbound_handler_replies :
  let regs :=
    [mkRegistration incomingEventsRef "foo" (replier 1 "pong");
     mkRegistration incomingEventsRef "foo" (quiet 2);
     mkRegistration boundOperationsRef "op" (quiet 3)] in
  let w := subscribeAll regs (construct false) in
  let bob := mkPlayer "bob" in
  output (calledAll [VPlayer bob; VNumber 41] [quiet 2; replier 1 "pong"] w) =
    [Invoked (quiet 2) [VPlayer bob; VNumber 41];
     Invoked (replier 1 "pong") [VPlayer bob; VNumber 41];
     FireClient bob "pong" [VNumber 41]].
Proof. reflexivity. Qed.


(** A pass in which a handler subscribes under the handle of the pass has no
    result, whatever the fuel. *)
Lemma dispatch_with_subscription_has_no_result :
  let hA := listener 1 "a" (quiet 2) in
  let w := subscribeAll [mkRegistration boundOperationsRef "a" hA] (construct false) in
  exec 9 (Dispatch "a" [VNumber 7]) w = None.
Proof. reflexivity. Qed.


Lemma subscription_adds_witness :
  let w := subscribeAll [mkRegistration boundOperationsRef "a" (quiet 1);
                         mkRegistration boundOperationsRef "a" (quiet 2)]
             (construct false) in
  let r := mkRegistration boundOperationsRef "a" (quiet 3) in
  exists w',
    subscribe r w = Returned (VIdentifier (mkIdentifier boundOperationsRef "a" 2)) w' /\
    Map.entries (queueOf boundOperationsRef "a" (this w')) ≡ₚ
      (2, quiet 3) :: Map.entries (queueOf boundOperationsRef "a" (this w)) /\
    (forall k,
       Map.get k (queueOf boundOperationsRef "a" (this w')) =
         if decide (k = 2) then Some (quiet 3)
         else Map.get k (queueOf boundOperationsRef "a" (this w))) /\
    (forall g' h', ~ (g' = boundOperationsRef /\ h' = "a") ->
       table g' (this w') !! h' = table g' (this w) !! h') /\
    incomingFunctions (this w') = incomingFunctions (this w) /\
    caseNumber (this w') = 3.
Proof.
  intros w r. apply (subscription_adds r w).
  exists false.
  apply (after_steps 1 [Script (Listen "a" (quiet 1)); Script (Listen "a" (quiet 2))]).
  reflexivity.
Defined.

(** Where the new entry of the example lies: between the entries with the
    ids 1 and 0. *)
Lemma subscription_adds_in_the_middle :
  let w := subscribeAll [mkRegistration boundOperationsRef "a" (quiet 1);
                         mkRegistration boundOperationsRef "a" (quiet 2)]
             (construct false) in
  let r := mkRegistration boundOperationsRef "a" (quiet 3) in
  Map.entries (queueOf boundOperationsRef "a" (this w)) = [(1, quiet 2); (0, quiet 1)] /\
  Map.entries (queueOf boundOperationsRef "a" (this (worldOf (subscribe r w)))) =
    [(1, quiet 2); (2, quiet 3); (0, quiet 1)].
Proof. split; reflexivity. Qed.

Lemma dispatch_after_unbind_witness :
  let w := subscribeAll [mkRegistration boundOperationsRef "a" (quiet 1);
                         mkRegistration boundOperationsRef "a" (quiet 2);
                         mkRegistration boundOperationsRef "a" (quiet 3);
                         mkRegistration boundPostOperationsRef "a" (quiet 4)]
             (construct false) in
  let i := mkIdentifier boundOperationsRef "a" 1 in
  exists w1 w',
    unbind i w = Returned (VBoolean true) w1 /\
    exec 5 (Dispatch "a" [VNumber 7]) w1 = Some (Returned VUndefined w') /\
    this w' = this w1 /\
    invocations (output w') =
      invocations (output w) ++
        [(quiet 3, [VNumber 7]); (quiet 1, [VNumber 7])] ++ [(quiet 4, [VNumber 7])].
Proof.
  intros w i.
  apply (dispatch_after_unbind 4 i [VNumber 7] w).
  - apply subscribeAll_wf, wf_construct.
  - reflexivity.
  - repeat constructor.
  - vm_compute. lia.
  - vm_compute. lia.
Defined.

Lemma throwing_handler_aborts_dispatch_witness :
  let alarm := mkHandler 2 (fun _ => [Broadcast "alarm" []; Raise "boom"])
                 (fun _ => VUndefined) in
  let w := subscribeAll [mkRegistration boundOperationsRef "a" (quiet 1);
                         mkRegistration boundOperationsRef "a" (quiet 3);
                         mkRegistration boundOperationsRef "a" alarm;
                         mkRegistration boundPostOperationsRef "a" (quiet 4)]
             (construct false) in
  exists w',
    exec 3 (Dispatch "a" [VNumber 7]) w = Some (Threw "boom" w') /\
    w' = foldl (fun w c => perform c w)
           (emitOutput (Invoked alarm [VNumber 7])
              (calledAll [VNumber 7] [quiet 3]
                 (verbosePrint
                    [queuedMessage "a" (boundOperations (this w) !! "a")
                       (boundPostOperations (this w) !! "a")] w)))
           [Broadcast "alarm" []] /\
    invocations (output w') =
      invocations (output w) ++ [(quiet 3, [VNumber 7]); (alarm, [VNumber 7])].
Proof.
  intros alarm w.
  apply (throwing_handler_aborts_dispatch 1 "a" [VNumber 7] w
           [(1, Some (quiet 3))] [(0, Some (quiet 1))] 2 alarm
           [Broadcast "alarm" []] "boom" []).
  - reflexivity.
  - repeat constructor.
  - reflexivity.
  - repeat constructor.
  - simpl. lia.
Defined.

(** What the output of the example is: the handler walked first, the handler
    that throws, and the message it sent before it threw. *)
Lemma throwing_handler_output :
  let alarm := mkHandler 2 (fun _ => [Broadcast "alarm" []; Raise "boom"])
                 (fun _ => VUndefined) in
  let w := subscribeAll [mkRegistration boundOperationsRef "a" (quiet 1);
                         mkRegistration boundOperationsRef "a" (quiet 3);
                         mkRegistration boundOperationsRef "a" alarm;
                         mkRegistration boundPostOperationsRef "a" (quiet 4)]
             (construct false) in
  output <$> (worldOf <$> exec 3 (Dispatch "a" [VNumber 7]) w) =
    Some [Invoked (quiet 3) [VNumber 7]; Invoked alarm [VNumber 7];
          FireAllClients "alarm" []].
Proof. reflexivity. Qed.

Lemma unbind_throws_for_unbound_handle_witness :
  let w := subscribeAll [mkRegistration boundOperationsRef "a" (quiet 1)]
             (construct false) in
  exists message, unbind (mkIdentifier boundPostOperationsRef "a" 0) w = Threw message w.
Proof.
  intros w.
  apply (unbind_throws_for_unbound_handle false
           [mkRegistration boundOperationsRef "a" (quiet 1)]
           (mkIdentifier boundPostOperationsRef "a" 0)).
  reflexivity.
Defined.

Lemma ids_name_one_registration_witness :
  let w := worldOf (unbind (mkIdentifier boundOperationsRef "a" 0)
             (subscribeAll [mkRegistration boundOperationsRef "a" (quiet 1);
                            mkRegistration incomingEventsRef "a" (quiet 2);
                            mkRegistration boundOperationsRef "a" (quiet 3)]
                (construct false))) in
  let q : OperationIdArray := [(2, Some (quiet 3)); (0, None)] in
  NoDup (Map.keys q) /\
  Forall (fun k => k < caseNumber (this w)) (Map.keys q) /\
  forall g' h' (q' : OperationIdArray) k,
    table g' (this w) !! h' = Some q' ->
    k ∈ Map.keys q -> k ∈ Map.keys q' -> boundOperationsRef = g' /\ "a" = h'.
Proof.
  intros w q.
  apply (ids_name_one_registration w boundOperationsRef "a" q); [|reflexivity].
  exists false.
  apply (after_steps 1 [Script (Listen "a" (quiet 1)); Script (On "a" (quiet 2));
                        Script (Listen "a" (quiet 3));
                        Script (Unbind (mkIdentifier boundOperationsRef "a" 0))]).
  reflexivity.
Defined.

Lemma late_post_handlers_are_not_called_witness :
  let first := postListener 1 "a" (quiet 3) in
  let second := postListener 2 "b" (quiet 4) in
  let w := subscribeAll [mkRegistration boundOperationsRef "a" first;
                         mkRegistration boundOperationsRef "a" second]
             (construct false) in
  exists w',
    exec 4 (Dispatch "a" [VNumber 7]) w = Some (Returned VUndefined w') /\
    invocations (output w') =
      invocations (output w) ++ [(second, [VNumber 7]); (first, [VNumber 7])].
Proof.
  intros first second w.
  apply (late_post_handlers_are_not_called 2 "a" [VNumber 7] w
           [(1, Some second); (0, Some first)]).
  - reflexivity.
  - reflexivity.
  - repeat constructor; simpl; eauto.
  - simpl. lia.
Defined.

(** The post handler of a dispatch like that of the example above is
    registered by that dispatch. The next dispatch finds a post queue when it
    starts, so it calls that handler, and also the one that the primary
    handler subscribes during this second pass. *)
Lemma late_post_handler_is_called_next_time :
  let w := subscribeAll [mkRegistration boundOperationsRef "a"
                           (postListener 1 "a" (quiet 2))]
             (construct false) in
  exists w1 w2,
    exec 3 (Dispatch "a" [VNumber 7]) w = Some (Returned VUndefined w1) /\
    Map.values (queueOf boundPostOperationsRef "a" (this w1)) = [quiet 2] /\
    exec 4 (Dispatch "a" [VNumber 8]) w1 = Some (Returned VUndefined w2) /\
    invocations (output w2) =
      invocations (output w1) ++
        [(postListener 1 "a" (quiet 2), [VNumber 8]);
         (quiet 2, [VNumber 8]); (quiet 2, [VNumber 8])].
Proof.
  intros w. eexists _, _. split; [vm_compute; reflexivity|].
  split; [vm_compute; reflexivity|]. split; vm_compute; reflexivity.
Qed.

Lemma nested_dispatch_runs_in_place_witness :
  let w := subscribeAll [mkRegistration boundOperationsRef "a" (quiet 1);
                         mkRegistration boundOperationsRef "a" (quiet 3);
                         mkRegistration boundOperationsRef "a" (redispatcher 2 "b");
                         mkRegistration boundPostOperationsRef "a" (quiet 4);
                         mkRegistration boundPostOperationsRef "b" (quiet 5);
                         mkRegistration boundOperationsRef "b" (quiet 6)]
             (construct false) in
  exists w',
    exec 5 (Dispatch "a" [VNumber 7]) w = Some (Returned VUndefined w') /\
    this w' = this w /\
    invocations (output w') =
      invocations (output w) ++
        [(quiet 3, [VNumber 7]); (redispatcher 2 "b", [VNumber 7]);
         (quiet 6, [VNumber 7]); (quiet 5, [VNumber 7]);
         (quiet 1, [VNumber 7]); (quiet 4, [VNumber 7])].
Proof.
  intros w.
  apply (nested_dispatch_runs_in_place 3 "a" "b" [VNumber 7] [VNumber 7] w
           [(1, Some (quiet 3))] [(0, Some (quiet 1))] 2 (redispatcher 2 "b")).
  - reflexivity.
  - reflexivity.
  - repeat constructor.
  - repeat constructor.
  - simpl. lia.
  - vm_compute. lia.
  - vm_compute. lia.
  - vm_compute. lia.
Defined.

Lemma verbose_log_witness :
  let regs := [mkRegistration boundOperationsRef "a" (quiet 1);
               mkRegistration incomingEventsRef "a" (quiet 2);
               mkRegistration boundPostOperationsRef "a" (quiet 3);
               mkRegistration boundOperationsRef "a" (quiet 4)] in
  let w := subscribeAll regs (construct true) in
  printed (output w) =
    [["DISPATCHER:"; "Finished initialization"];
     ["DISPATCHER:"; "Bound " +:+ quoted "a"];
     ["DISPATCHER:"; "Bound EVNT: " +:+ quoted "a"];
     ["DISPATCHER:"; "Bound " +:+ quoted "a" +:+ " to post"];
     ["DISPATCHER:"; "Bound " +:+ quoted "a"]] /\
  exists w',
    step 6 (Script (Dispatch "a" [VNumber 7])) w = Some (Returned VUndefined w') /\
    printed (output w') =
      printed (output w) ++
        [["DISPATCHER:"; "Queued " +:+ quoted "a" +:+ " with 2 (+1) bound."]].
Proof.
  intros regs w.
  apply (verbose_log regs "a" [VNumber 7] 6).
  - repeat constructor.
  - simpl. lia.
Defined.
